(** * treetime: the GTR substitution model ([tree_time/gtr.py])

    A shallow embedding of the class [GTR]: its constructor, the factory
    [standard], the validation of the rate matrix, the eigendecomposition,
    and the three queries [prob_t], [optimal_t] and [propagate_profile];
    then the properties of the model that the specification states.

    Conventions of the embedding.
    - A numpy array of floats is a list of reals (one dimension) or a list of
      rows (two dimensions); arithmetic is exact, so a statement proved here
      is a statement about the algorithm and not about rounding.  Division
      and logarithm are those of the reals; numpy's [inf] and [nan] are
      outside the model.  A two-dimensional array without rows stands for
      any shape [(0, m)].  The array operations are total on lists; numpy's
      refusal of operands whose shapes do not align is outside the model,
      and the theorems about products of arrays carry the shapes as
      hypotheses.
    - A Python exception is a value of [exn]; a method of [GTR] is a function
      from the object's state to an outcome and the state the call leaves
      behind, so that what a failed call did to the object can be stated.
    - A name that Python must look up at run time is looked up in the model
      too: a module-level name in [module_names], a local variable in an
      [option] that is [None] until the first assignment.
    - What the module imports and the source tree does not contain (the
      alphabet table of [seq_utils], the constants of [config],
      [numpy.linalg], [numpy.random], [scipy.optimize]) is a field of
      [Env]. *)

From Stdlib Require Import String Ascii.
From Stdlib Require Import Reals Lra Lia List Bool Arith.
From Stdlib Require Import FunctionalExtensionality.
Import ListNotations.

Open Scope string_scope.
Open Scope R_scope.

(* ================================================================== *)
(** ** Python: exceptions, outcomes, name lookup                        *)
(* ================================================================== *)

Inductive exn : Type :=
| AttributeError
| NotImplementedError
| ArithmeticError
| ValueError
| NameError
| UnboundLocalError
| ZeroDivisionError
| LinAlgError.

Inductive result (A : Type) : Type :=
| Ok (a : A)
| Raise (e : exn).

Arguments Ok {A} a.
Arguments Raise {A} e.

Definition result_bind {A B} (r : result A) (k : A -> result B) : result B :=
  match r with
  | Ok a => k a
  | Raise e => Raise e
  end.

Notation "x <- r ;; k" := (result_bind r (fun x => k))
  (at level 61, r at next level, right associativity).

(** The names bound at module level once [gtr.py] is imported: the four
    imports and the class. *)
Definition module_names : list string :=
  ["np"; "sciopt"; "ttconf"; "alphabets"; "GTR"].

(** Reading a name that is not local: it must be bound in the module (the
    names read this way are no builtins). *)
Definition load_global (name : string) : result unit :=
  if existsb (String.eqb name) module_names then Ok tt else Raise NameError.

(** Reading a local variable: [None] before its first assignment. *)
Definition load_local {A} (x : option A) : result A :=
  match x with
  | Some a => Ok a
  | None => Raise UnboundLocalError
  end.

(* ================================================================== *)
(** ** numpy: the array operations the module uses                     *)
(* ================================================================== *)

Definition vec := list R.
Definition matrix := list vec.

Module np.

Fixpoint zipWith {A B C} (f : A -> B -> C) (x : list A) (y : list B) : list C :=
  match x, y with
  | a :: x', b :: y' => f a b :: zipWith f x' y'
  | _, _ => []
  end.

(** [enumerate]: the elements with their positions. *)
Definition enumerate {A} (x : list A) : list (nat * A) :=
  combine (seq 0 (length x)) x.

(** [x[i] = a]; positions outside the list are never written here. *)
Fixpoint setitem (i : nat) (a : R) (x : vec) : vec :=
  match x, i with
  | [], _ => []
  | _ :: x', O => a :: x'
  | b :: x', S i' => b :: setitem i' a x'
  end.

Definition zeros (n : nat) : vec := repeat 0 n.
Definition zeros2 (n m : nat) : matrix := repeat (repeat 0 m) n.
Definition ones2 (n m : nat) : matrix := repeat (repeat 1 m) n.

Definition shape0 (M : matrix) : nat := length M.
Definition shape1 (M : matrix) : nat :=
  match M with
  | [] => 0%nat
  | r :: _ => length r
  end.

(** [x.sum()] and [x.prod()] of a one-dimensional array. *)
Definition sum (x : vec) : R := fold_right Rplus 0 x.
Definition prod (x : vec) : R := fold_right Rmult 1 x.

(** [M[:, j]] *)
Definition col (j : nat) (M : matrix) : vec := map (fun r => nth j r 0) M.

(** [M.T] *)
Definition T (M : matrix) : matrix :=
  map (fun j => col j M) (seq 0 (shape1 M)).

(** The inner product of two one-dimensional arrays. *)
Definition vdot (x y : vec) : R := sum (zipWith Rmult x y).

(** [A.dot(B)]: entry [(i, j)] is row [i] of [A] times column [j] of [B]. *)
Definition dot (A B : matrix) : matrix :=
  map (fun r => map (fun j => vdot r (col j B)) (seq 0 (shape1 B))) A.

(** [M.sum(0)], [M.sum(1)], [M.sum()] *)
Definition sum0 (M : matrix) : vec :=
  map (fun j => sum (col j M)) (seq 0 (shape1 M)).
Definition sum1 (M : matrix) : vec := map sum M.
Definition sum_all (M : matrix) : R := sum (map sum M).

(** [np.diagonal(M)] *)
Definition diagonal (M : matrix) : vec :=
  map (fun ir => nth (fst ir) (snd ir) 0) (enumerate M).

(** [np.fill_diagonal(M, d)] with an array [d], and with a scalar. *)
Definition fill_diagonal (M : matrix) (d : vec) : matrix :=
  map (fun ir => setitem (fst ir) (nth (fst ir) d 0) (snd ir)) (enumerate M).
Definition fill_diagonal_scalar (M : matrix) (c : R) : matrix :=
  map (fun ir => setitem (fst ir) c (snd ir)) (enumerate M).

(** [np.diagflat(d)] *)
Definition diagflat (d : vec) : matrix :=
  fill_diagonal (zeros2 (length d) (length d)) d.

(** Elementwise arithmetic, with the broadcasts the module relies on:
    matrix with matrix, a one-dimensional array along every row of a
    matrix, a matrix or a one-dimensional array with a scalar. *)
Definition mul (A B : matrix) : matrix := zipWith (zipWith Rmult) A B.
Definition mul_rows (M : matrix) (x : vec) : matrix :=
  map (fun r => zipWith Rmult r x) M.
Definition rows_mul (x : vec) (M : matrix) : matrix :=
  map (fun r => zipWith Rmult x r) M.
Definition add (A B : matrix) : matrix := zipWith (zipWith Rplus) A B.
Definition div_scalar (M : matrix) (s : R) : matrix :=
  map (map (fun x => x / s)) M.
Definition vdiv (x y : vec) : vec := zipWith Rdiv x y.
Definition vdiv_scalar (x : vec) (s : R) : vec := map (fun a => a / s) x.
Definition vneg (x : vec) : vec := map Ropp x.
Definition vsub_scalar (x : vec) (s : R) : vec := map (fun a => a - s) x.
Definition exp (x : vec) : vec := map Rtrigo_def.exp x.
Definition log (M : matrix) : matrix := map (map ln) M.
Definition vlog (x : vec) : vec := map ln x.

(** [(x < c).sum()]: how many entries lie below [c]. *)
Definition count_lt (x : vec) (c : R) : nat :=
  length (filter (fun a => if Rlt_dec a c then true else false) x).

(** [x[x < 0] = 0.0] *)
Definition clip_negative (x : vec) : vec :=
  map (fun a => if Rlt_dec a 0 then 0 else a) x.

(** The identity matrix (not used by the module; the inverse of a matrix
    is stated with it). *)
Definition eye (n : nat) : matrix :=
  fill_diagonal_scalar (zeros2 n n) 1.

End np.

(* ================================================================== *)
(** ** What the module imports                                          *)
(* ================================================================== *)

(** The result object of [scipy.optimize.minimize_scalar]: the fields the
    module reads. *)
Record OptimizeResult : Type := mkOpt {
  opt_x : R;
  opt_success : bool
}.

Record Env : Type := mkEnv {
  (** [seq_utils.alphabets], a dict from alphabet names to arrays of symbols *)
  alphabets : string -> option (list ascii);
  (** [config.MAX_BRANCH_LENGTH], [config.TINY_NUMBER], [config.BIG_NUMBER] *)
  MAX_BRANCH_LENGTH : R;
  TINY_NUMBER : R;
  BIG_NUMBER : R;
  (** [np.linalg.eig] (eigenvalues, eigenvectors) and [np.linalg.inv] *)
  linalg_eig : matrix -> result (vec * matrix);
  linalg_inv : matrix -> result matrix;
  (** the draws of [np.random.randint(0, 100, size=(a))] and
      [np.random.randint(0, 100, size=(a, a))] *)
  random_randint1 : nat -> vec;
  random_randint2 : nat -> matrix;
  (** [sciopt.minimize_scalar(f, bounds=[lo, hi], method='Bounded')]; an
      exception of the objective leaves through the optimizer *)
  minimize_scalar : (R -> result R) -> R -> R -> result OptimizeResult
}.

(* ================================================================== *)
(** ** The class GTR                                                    *)
(* ================================================================== *)

Record GTR : Type := mkGTR {
  alphabet_type : string;
  alphabet : list ascii;
  W : matrix;
  Pi : matrix;
  mu : R;
  v : matrix;
  v_inv : matrix;
  eigenmat : vec;
  dm : option matrix
}.

Definition set_W (g : GTR) (x : matrix) : GTR :=
  mkGTR (alphabet_type g) (alphabet g) x (Pi g) (mu g) (v g) (v_inv g)
        (eigenmat g) (dm g).
Definition set_Pi (g : GTR) (x : matrix) : GTR :=
  mkGTR (alphabet_type g) (alphabet g) (W g) x (mu g) (v g) (v_inv g)
        (eigenmat g) (dm g).
Definition set_mu (g : GTR) (x : R) : GTR :=
  mkGTR (alphabet_type g) (alphabet g) (W g) (Pi g) x (v g) (v_inv g)
        (eigenmat g) (dm g).
Definition set_v (g : GTR) (x : matrix) : GTR :=
  mkGTR (alphabet_type g) (alphabet g) (W g) (Pi g) (mu g) x (v_inv g)
        (eigenmat g) (dm g).
Definition set_v_inv (g : GTR) (x : matrix) : GTR :=
  mkGTR (alphabet_type g) (alphabet g) (W g) (Pi g) (mu g) (v g) x
        (eigenmat g) (dm g).
Definition set_eigenmat (g : GTR) (x : vec) : GTR :=
  mkGTR (alphabet_type g) (alphabet g) (W g) (Pi g) (mu g) (v g) (v_inv g)
        x (dm g).

Definition set_dm (g : GTR) (x : option matrix) : GTR :=
  mkGTR (alphabet_type g) (alphabet g) (W g) (Pi g) (mu g) (v g) (v_inv g)
        (eigenmat g) x.

(** A method: the outcome of the call and the state of [self] after it. *)
Definition method (A : Type) : Type := GTR -> result A * GTR.

(** Calling a method on a local object and going on with the object. *)
Definition call {A} (m : method A) (g : GTR) : result GTR :=
  match m g with
  | (Ok _, g') => Ok g'
  | (Raise e, _) => Raise e
  end.

(** The keyword arguments of [standard]: the two keys it reads. *)
Record Kwargs : Type := mkKwargs {
  kw_alphabet : option string;
  kw_mu : option R
}.

(** [_check_fix_Q] reads and writes [self] only. *)
Definition _check_fix_Q : method unit := fun self =>
  let Q := np.dot (Pi self) (W self) in
  if (np.count_lt (np.sum0 Q) 1e-10 <? length (alphabet self))%nat
  then
    (* fix Q *)
    let self := set_Pi self (np.div_scalar (Pi self) (np.sum_all (Pi self))) in
    (* fix W *)
    let self := set_W self (np.fill_diagonal_scalar (W self) 0) in
    let Wdiag :=
      np.vdiv
        (np.vneg (np.sum0 (np.T (np.mul_rows (np.T (W self))
                                             (np.diagonal (Pi self))))))
        (np.diagonal (Pi self)) in
    let self := set_W self (np.fill_diagonal (W self) Wdiag) in
    let Q1 := np.dot (Pi self) (W self) in
    if (np.count_lt (np.sum0 Q1) 1e-10 <? length (alphabet self))%nat
    then (Raise ArithmeticError, self)
    else (Ok tt, self)
  else (Ok tt, self).

(** The test of [_check_fix_Q] ("at least one rate is wrong"), and the model
    after the three assignments of its repair. *)
Definition rate_is_wrong (self : GTR) : bool :=
  (np.count_lt (np.sum0 (np.dot (Pi self) (W self))) 1e-10
   <? length (alphabet self))%nat.

Definition fix_Q (self : GTR) : GTR :=
  let self := set_Pi self (np.div_scalar (Pi self) (np.sum_all (Pi self))) in
  let self := set_W self (np.fill_diagonal_scalar (W self) 0) in
  let Wdiag :=
    np.vdiv
      (np.vneg (np.sum0 (np.T (np.mul_rows (np.T (W self))
                                           (np.diagonal (Pi self))))))
      (np.diagonal (Pi self)) in
  set_W self (np.fill_diagonal (W self) Wdiag).

Section Model.

Variable env : Env.

(** [GTR.__init__] *)
Definition __init__ (alphabet_type : string) : result GTR :=
  match alphabets env alphabet_type with
  | None => Raise AttributeError
  | Some alphabet =>
      let a := length alphabet in
      Ok {| alphabet_type := alphabet_type;
            alphabet := alphabet;
            W := np.zeros2 a a;
            Pi := np.zeros2 a a;
            mu := 1;
            v := np.zeros2 a a;
            v_inv := np.zeros2 a a;
            eigenmat := np.zeros a;
            dm := None |}
  end.

(** [GTR._eig] *)
Definition _eig : method unit := fun self =>
  match linalg_eig env (np.dot (Pi self) (W self)) with
  | Raise e => (Raise e, self)
  | Ok (eigvals, eigvecs) =>
      let self := set_v self eigvecs in
      match linalg_inv env (v self) with
      | Raise e => (Raise e, self)
      | Ok vi =>
          let self := set_v_inv self vi in
          let self := set_eigenmat self eigvals in
          (Ok tt, self)
      end
  end.

(** [GTR.standard].  The two [print] calls write to the standard output
    and are left out. *)
Definition standard (model : string) (kwargs : Kwargs) : result GTR :=
  (* the local variable [alphabet], not yet assigned *)
  let alphabet0 : option string := None in
  alphabet1 <-
    match kw_alphabet kwargs with
    | Some given =>
        (* 'alphabet' in kwargs holds: the right operand of [and] is
           evaluated, and it reads the local [alphabet] *)
        a <- load_local alphabet0 ;;
        match alphabets env a with
        | Some _ => Ok given
        | None => Ok "nuc"
        end
    | None => Ok "nuc"
    end ;;
  let mu :=
    match kw_mu kwargs with
    | Some m => m
    | None => 1
    end in
  if String.eqb model "Jukes-Cantor" then
    gtr <- __init__ "nuc" ;;
    let gtr := set_mu gtr mu in
    let a := length (alphabet gtr) in
    (* flow matrix *)
    let gtr := set_W gtr (np.ones2 a a) in
    let gtr :=
      set_W gtr (np.fill_diagonal (W gtr)
                   (np.vneg (np.vsub_scalar (np.sum0 (W gtr)) 1))) in
    (* equilibrium concentrations matrix *)
    let gtr := set_Pi gtr (np.zeros2 (np.shape0 (W gtr)) (np.shape1 (W gtr))) in
    freq <- (if (a =? 0)%nat then Raise ZeroDivisionError
             else Ok (1 / INR a)) ;;
    let gtr := set_Pi gtr (np.fill_diagonal_scalar (Pi gtr) freq) in
    gtr <- call _check_fix_Q gtr ;;
    gtr <- call _eig gtr ;;
    Ok gtr
  else if String.eqb model "random" then
    gtr <- __init__ alphabet1 ;;
    let a := length (alphabet gtr) in
    let gtr := set_mu gtr mu in
    let Pi := map (Rmult 1) (random_randint1 env a) in
    let Pi := np.vdiv_scalar Pi (np.sum Pi) in
    let gtr := set_Pi gtr (np.diagflat Pi) in
    let W := map (map (Rmult 1)) (random_randint2 env a) in
    let gtr := set_W gtr (np.add W (np.T W)) in
    gtr <- call _check_fix_Q gtr ;;
    gtr <- call _eig gtr ;;
    Ok gtr
  else Raise NotImplementedError.

(** [GTR._exp_lt] *)
Definition _exp_lt (self : GTR) (t : R) : vec :=
  np.exp (map (fun lam => mu self * t * lam) (eigenmat self)).

(** [GTR.prob_t] *)
Definition prob_t (profile_p profile_ch : matrix) (t : R)
           (rotated return_log : bool) : method R := fun self =>
  if Rlt_dec t 0 then
    if return_log then
      (_ <- load_global "BIG_NUMBER" ;; Ok (- BIG_NUMBER env), self)
    else (Ok 0, self)
  else
    let L := np.shape0 profile_p in
    if negb (L =? np.shape0 profile_ch)%nat then (Raise ValueError, self)
    else
      let eLambdaT := _exp_lt self t in
      let '(p1, p2) :=
        if negb rotated then
          (np.dot profile_p (v self),
           np.T (np.dot (v_inv self) (np.T profile_ch)))
        else (profile_p, profile_ch) in
      let prob := np.sum1 (np.mul (np.mul_rows p1 eLambdaT) p2) in
      let prob := np.clip_negative prob in
      if return_log then
        (Ok (np.sum (np.vlog (map (fun x => x + TINY_NUMBER env) prob))), self)
      else (Ok (np.prod prob), self).

(** [GTR.optimal_t].  Under [if verbose > 0] the source prints, then it
    enters the [ipdb] debugger and returns [-1.0]. *)
Definition optimal_t (profile_p profile_ch : matrix)
           (rotated return_log : bool) : method R := fun self =>
  let _neg_prob := fun (t : R) (parent child : matrix) =>
    p <- fst (prob_t parent child t false true self) ;;
    Ok (-1 * p) in
  match minimize_scalar env (fun t => _neg_prob t profile_p profile_ch)
          0 (MAX_BRANCH_LENGTH env) with
  | Raise e => (Raise e, self)
  | Ok opt =>
      let new_len := opt_x opt in
      if (if Rgt_dec new_len (0.9 * MAX_BRANCH_LENGTH env) then true else false)
         || negb (Bool.eqb (opt_success opt) true)
      then (_ <- load_global "verbose" ;; Ok (- 1), self)
      else (Ok new_len, self)
  end.

(** [GTR.propagate_profile] *)
Definition propagate_profile (profile : matrix) (t : R)
           (rotated return_log : bool) : method matrix := fun self =>
  let eLambdaT := _exp_lt self t in
  let p :=
    if negb rotated then np.T (np.dot (v_inv self) (np.T profile))
    else profile in
  let res := np.T (np.dot (v self) (np.T (np.rows_mul eLambdaT p))) in
  if negb return_log then (Ok res, self)
  else (Ok (np.log res), self).

(** A list comprehension whose element is a method call: the calls run in
    order on [self], and the first exception ends the comprehension. *)
Fixpoint comprehension {A B} (f : A -> method B) (xs : list A)
  : method (list B) := fun self =>
  match xs with
  | [] => (Ok [], self)
  | x :: xs' =>
      match f x self with
      | (Raise e, self) => (Raise e, self)
      | (Ok b, self) =>
          match comprehension f xs' self with
          | (Raise e, self) => (Raise e, self)
          | (Ok bs, self) => (Ok (b :: bs), self)
          end
      end
  end.

(** [GTR.create_dm]: the table [T] of pairwise times is a local variable,
    and the method ends after computing it. *)
Definition create_dm (profiles : list matrix) : method unit := fun self =>
  let self :=
    set_dm self (Some (np.zeros2 (np.shape0 (Pi self))
                                 (np.shape1 (Pi self)))) in
  match comprehension
          (fun p2 => comprehension (fun p1 => optimal_t p1 p2 false false)
                                   profiles)
          profiles self with
  | (Raise e, self) => (Raise e, self)
  | (Ok T, self) => (Ok tt, self)
  end.

(** [GTR.dm_dist]: the body is [pass]; the call returns [None]. *)
Definition dm_dist (p1 p2 : matrix) : method unit := fun self =>
  (Ok tt, self).

End Model.

(* ================================================================== *)
(** ** The vocabulary of the specification                              *)
(* ================================================================== *)

(** The specification's error names, read on Python's exceptions. *)
Definition DimensionMismatchError : exn := ValueError.
Definition InvalidModelError : exn := ArithmeticError.
Definition ConfigurationError (e : exn) : Prop :=
  e = AttributeError \/ e = NotImplementedError.

(** Entry [(i, j)] of a two-dimensional array. *)
Definition entry (M : matrix) (i j : nat) : R := nth j (nth i M []) 0.

(** [M] has [n] rows of [m] entries each. *)
Definition is_matrix (n m : nat) (M : matrix) : Prop :=
  length M = n /\ forall r, In r M -> length r = m.

(** The sum of [f 0], ..., [f (n - 1)]. *)
Definition bigsum (n : nat) (f : nat -> R) : R := np.sum (map f (seq 0 n)).

(** A matrix applied to a column, and a row applied to a matrix: the rows
    of [(M.dot(p.T)).T] and of [p.dot(M)]. *)
Definition matvec (M : matrix) (x : vec) : vec :=
  map (fun r => np.vdot r x) M.
Definition vecmat (x : vec) (M : matrix) : vec :=
  map (fun j => np.vdot x (np.col j M)) (seq 0 (np.shape1 M)).

(** The generator invariant: every column of [Q = Pi.dot(W)] sums to zero
    within [1e-10]. *)
Definition columns_sum_to_zero (g : GTR) : Prop :=
  Forall (fun s => Rabs s <= 1e-10) (np.sum0 (np.dot (Pi g) (W g))).

(** What [_check_fix_Q] tests: every column sum lies below [1e-10]. *)
Definition columns_sum_below (g : GTR) : Prop :=
  Forall (fun s => s < 1e-10) (np.sum0 (np.dot (Pi g) (W g))).

(** A row that is a probability distribution, and one that puts all its
    mass on a single symbol. *)
Definition distribution (r : vec) : Prop :=
  Forall (fun x => 0 <= x) r /\ np.sum r = 1.
Definition one_hot (r : vec) : Prop :=
  exists k, (k < length r)%nat /\
            r = np.setitem k 1 (np.zeros (length r)).

(** A profile over an alphabet of [a] symbols: [L] sites, one row each. *)
Definition valid_profile (a : nat) (p : matrix) : Prop :=
  (forall r, In r p -> length r = a) /\ Forall distribution p.
Definition one_hot_profile (a : nat) (p : matrix) : Prop :=
  (forall r, In r p -> length r = a) /\ Forall one_hot p.

(** The eigendecomposition held by a model over [a] symbols is exact: the
    matrix of eigenvectors times its inverse is the identity. *)
Definition eig_exact (a : nat) (g : GTR) : Prop :=
  is_matrix a a (v g) /\ is_matrix a a (v_inv g) /\
  length (eigenmat g) = a /\
  np.dot (v g) (v_inv g) = np.eye a.

(** The arrays of the eigendecomposition have the shapes that go with an
    alphabet of [a] symbols. *)
Definition eig_shaped (a : nat) (g : GTR) : Prop :=
  is_matrix a a (v g) /\ is_matrix a a (v_inv g) /\
  length (eigenmat g) = a.

(** One row of a profile carried forward by time [t]: into the eigenspace,
    times the decay factors, and back. *)
Definition propagated_row (g : GTR) (t : R) (c : vec) : vec :=
  matvec (v g) (np.zipWith Rmult (_exp_lt g t) (matvec (v_inv g) c)).

(** In this environment the linear-algebra facility answers: [eig]
    returns on every matrix and [inv] returns on the eigenvectors. *)
Definition linalg_returns (env : Env) : Prop :=
  forall Q, exists w V Vi,
    linalg_eig env Q = Ok (w, V) /\ linalg_inv env V = Ok Vi.

(** The draws of the random preset for an alphabet of [a] symbols: [a]
    positive integers for the frequencies, an [a] by [a] table of
    non-negative integers for the rates. *)
Definition draws_fit (env : Env) (a : nat) : Prop :=
  length (random_randint1 env a) = a /\
  Forall (fun x => 0 < x) (random_randint1 env a) /\
  is_matrix a a (random_randint2 env a) /\
  (forall i j, (i < a)%nat -> (j < a)%nat ->
               0 <= entry (random_randint2 env a) i j).

(* ================================================================== *)
(** ** A sample environment and sample models                          *)
(* ================================================================== *)

Module Sample.

Definition nuc : list ascii := ["A"; "C"; "G"; "T"]%char.

(** The Jukes-Cantor generator over four symbols is [J/4 - I]; its
    eigenvalues are [0, -1, -1, -1]. *)
Definition eigvals : vec := [0; -1; -1; -1].
Definition eigvecs : matrix :=
  [[1; 1; 1; 1]; [1; -1; 0; 0]; [1; 0; -1; 0]; [1; 0; 0; -1]].
Definition eigvecs_inv : matrix :=
  [[1/4; 1/4; 1/4; 1/4]; [1/4; -3/4; 1/4; 1/4];
   [1/4; 1/4; -3/4; 1/4]; [1/4; 1/4; 1/4; -3/4]].

(** An environment: the nucleotide alphabet, a linear-algebra facility
    that answers with the decomposition above, and an optimizer run that
    ends at the upper bound without converging. *)
Definition env : Env :=
  {| alphabets := fun s => if String.eqb s "nuc" then Some nuc else None;
     MAX_BRANCH_LENGTH := 1.5;
     TINY_NUMBER := 1e-12;
     BIG_NUMBER := 1e10;
     linalg_eig := fun _ => Ok (eigvals, eigvecs);
     linalg_inv := fun _ => Ok eigvecs_inv;
     random_randint1 := fun a => repeat 1 a;
     random_randint2 := fun a => repeat (repeat 1 a) a;
     minimize_scalar :=
       fun _ _ hi => Ok {| opt_x := hi; opt_success := false |} |}.

Definition no_kwargs : Kwargs := {| kw_alphabet := None; kw_mu := None |}.

(** The Jukes-Cantor model over [nuc]. *)
Definition JC : GTR :=
  {| alphabet_type := "nuc";
     alphabet := nuc;
     W := [[-3; 1; 1; 1]; [1; -3; 1; 1]; [1; 1; -3; 1]; [1; 1; 1; -3]];
     Pi := [[1/4; 0; 0; 0]; [0; 1/4; 0; 0]; [0; 0; 1/4; 0]; [0; 0; 0; 1/4]];
     mu := 1;
     v := eigvecs;
     v_inv := eigvecs_inv;
     eigenmat := eigvals;
     dm := None |}.

(** A model assigned by hand: uniform equilibrium, and an exchangeability
    matrix whose diagonal is [-5] where the off-diagonal rates ask for
    [-3]. *)
Definition steep : GTR :=
  {| alphabet_type := "nuc";
     alphabet := nuc;
     W := [[-5; 1; 1; 1]; [1; -5; 1; 1]; [1; 1; -5; 1]; [1; 1; 1; -5]];
     Pi := [[1/4; 0; 0; 0]; [0; 1/4; 0; 0]; [0; 0; 1/4; 0]; [0; 0; 0; 1/4]];
     mu := 1;
     v := np.zeros2 4 4;
     v_inv := np.zeros2 4 4;
     eigenmat := np.zeros 4;
     dm := None |}.

(** Profiles of one site: the symbol [A] observed, and [A] or [C] with
    equal probability. *)
Definition site_A : matrix := [[1; 0; 0; 0]].
Definition site_AC : matrix := [[1/2; 1/2; 0; 0]].
(** A profile of two sites. *)
Definition two_sites : matrix := [[1; 0; 0; 0]; [0; 0; 1; 0]].

End Sample.

(* ================================================================== *)
(** ** More sample models                                               *)
(* ================================================================== *)

Module Sample2.

Definition binary : list ascii := ["0"; "1"]%char.

(** A model over two symbols assigned by hand, with a diagonal equilibrium
    that does not sum to one and no diagonal in [W]. *)
Definition loose : GTR :=
  {| alphabet_type := "bin";
     alphabet := binary;
     W := [[0; 2]; [2; 0]];
     Pi := [[1; 0]; [0; 3]];
     mu := 1;
     v := np.zeros2 2 2;
     v_inv := np.zeros2 2 2;
     eigenmat := np.zeros 2;
     dm := None |}.

(** The same with an equilibrium matrix that is not diagonal. *)
Definition skew : GTR :=
  {| alphabet_type := "bin";
     alphabet := binary;
     W := [[0; 1]; [1; 0]];
     Pi := [[1/2; 1/2]; [0; 1/2]];
     mu := 1;
     v := np.zeros2 2 2;
     v_inv := np.zeros2 2 2;
     eigenmat := np.zeros 2;
     dm := None |}.

(** The sample environment with an optimizer run that converges at half a
    unit of time. *)
Definition env_converged : Env :=
  {| alphabets := alphabets Sample.env;
     MAX_BRANCH_LENGTH := 1.5;
     TINY_NUMBER := 1e-12;
     BIG_NUMBER := 1e10;
     linalg_eig := linalg_eig Sample.env;
     linalg_inv := linalg_inv Sample.env;
     random_randint1 := random_randint1 Sample.env;
     random_randint2 := random_randint2 Sample.env;
     minimize_scalar :=
       fun _ _ _ => Ok {| opt_x := 0.5; opt_success := true |} |}.

(** The sample environment with a matrix inverse that fails. *)
Definition env_singular : Env :=
  {| alphabets := alphabets Sample.env;
     MAX_BRANCH_LENGTH := 1.5;
     TINY_NUMBER := 1e-12;
     BIG_NUMBER := 1e10;
     linalg_eig := linalg_eig Sample.env;
     linalg_inv := fun _ => Raise LinAlgError;
     random_randint1 := random_randint1 Sample.env;
     random_randint2 := random_randint2 Sample.env;
     minimize_scalar := minimize_scalar Sample.env |}.

End Sample2.

(* ================================================================== *)
(** ** Finite sums                                                      *)
(* ================================================================== *)

Lemma sum_app (x y : vec) : np.sum (x ++ y)%list = np.sum x + np.sum y.
Proof.
  induction x as [|a x IH]; simpl.
  - lra.
  - rewrite IH. lra.
Qed.

Lemma bigsum_S (n : nat) (f : nat -> R) : bigsum (S n) f = bigsum n f + f n.
Proof.
  unfold bigsum. rewrite seq_S, map_app, sum_app. simpl. lra.
Qed.

Lemma bigsum_ext (n : nat) (f g : nat -> R) :
  (forall i, (i < n)%nat -> f i = g i) -> bigsum n f = bigsum n g.
Proof.
  induction n as [|n IH]; intros H.
  - reflexivity.
  - rewrite !bigsum_S, IH, H; auto.
Qed.

Lemma bigsum_plus (n : nat) (f g : nat -> R) :
  bigsum n (fun i => f i + g i) = bigsum n f + bigsum n g.
Proof.
  induction n as [|n IH].
  - unfold bigsum. simpl. lra.
  - rewrite !bigsum_S, IH. lra.
Qed.

Lemma bigsum_scal (n : nat) (c : R) (f : nat -> R) :
  bigsum n (fun i => c * f i) = c * bigsum n f.
Proof.
  induction n as [|n IH].
  - unfold bigsum. simpl. lra.
  - rewrite !bigsum_S, IH. lra.
Qed.

Lemma bigsum_zero (n : nat) : bigsum n (fun _ => 0) = 0.
Proof.
  induction n as [|n IH].
  - reflexivity.
  - rewrite bigsum_S, IH. lra.
Qed.

Lemma bigsum_const (n : nat) (c : R) : bigsum n (fun _ => c) = INR n * c.
Proof.
  induction n as [|n IH].
  - unfold bigsum. simpl. lra.
  - rewrite bigsum_S, IH, S_INR. lra.
Qed.

Lemma bigsum_swap (n m : nat) (f : nat -> nat -> R) :
  bigsum n (fun i => bigsum m (fun j => f i j)) =
  bigsum m (fun j => bigsum n (fun i => f i j)).
Proof.
  induction n as [|n IH].
  - transitivity (bigsum m (fun _ => 0)).
    + now rewrite bigsum_zero.
    + apply bigsum_ext. reflexivity.
  - rewrite bigsum_S, IH, <- bigsum_plus.
    apply bigsum_ext. intros j _. now rewrite bigsum_S.
Qed.

(** A sum against an indicator keeps one term. *)
Lemma bigsum_pick (n j : nat) (c : R) (f : nat -> R) :
  (j < n)%nat ->
  bigsum n (fun i => (if (i =? j)%nat then c else 0) * f i) = c * f j.
Proof.
  induction n as [|n IH]; intros Hj.
  - lia.
  - rewrite bigsum_S. destruct (Nat.eq_dec j n) as [->|Hne].
    + rewrite Nat.eqb_refl.
      rewrite (bigsum_ext n _ (fun _ => 0)).
      * rewrite bigsum_zero. lra.
      * intros i Hi. destruct (Nat.eqb_spec i n); [lia | lra].
    + rewrite IH by lia.
      destruct (Nat.eqb_spec n j); [lia | lra].
Qed.

Lemma bigsum_pick_r (n j : nat) (c : R) (f : nat -> R) :
  (j < n)%nat ->
  bigsum n (fun i => f i * (if (i =? j)%nat then c else 0)) = f j * c.
Proof.
  intros Hj.
  rewrite (bigsum_ext n _
             (fun i => (if (i =? j)%nat then c else 0) * f i)).
  - rewrite bigsum_pick by assumption. lra.
  - intros i _. lra.
Qed.

(* ================================================================== *)
(** ** Lists by their entries                                           *)
(* ================================================================== *)

Lemma nth_map_seq {A} (f : nat -> A) (n i : nat) (d : A) :
  (i < n)%nat -> nth i (map f (seq 0 n)) d = f i.
Proof.
  intros Hi.
  rewrite (nth_indep _ d (f 0%nat)) by now rewrite length_map, length_seq.
  rewrite map_nth, seq_nth by assumption. reflexivity.
Qed.

Lemma map_nth_seq {A} (d : A) (x : list A) :
  map (fun i => nth i x d) (seq 0 (length x)) = x.
Proof.
  apply (nth_ext _ _ d d).
  - now rewrite length_map, length_seq.
  - intros i Hi. rewrite length_map, length_seq in Hi.
    now rewrite nth_map_seq.
Qed.

Lemma map_seq_rows {A B} (d : A) (f : A -> B) (x : list A) :
  map (fun i => f (nth i x d)) (seq 0 (length x)) = map f x.
Proof.
  rewrite <- (map_map (fun i => nth i x d) f), map_nth_seq. reflexivity.
Qed.

Lemma sum_bigsum (x : vec) : np.sum x = bigsum (length x) (fun i => nth i x 0).
Proof.
  unfold bigsum. now rewrite map_nth_seq.
Qed.

Lemma length_zipWith {A B C} (f : A -> B -> C) (x : list A) (y : list B) :
  length (np.zipWith f x y) = Nat.min (length x) (length y).
Proof.
  revert y. induction x as [|a x IH]; intros [|b y]; simpl; auto.
Qed.

Lemma nth_zipWith (f : R -> R -> R) (x y : vec) (i : nat) :
  (i < length x)%nat -> (i < length y)%nat ->
  nth i (np.zipWith f x y) 0 = f (nth i x 0) (nth i y 0).
Proof.
  revert y i. induction x as [|a x IH]; intros [|b y] [|i] Hx Hy;
    simpl in *; try lia; auto.
  apply IH; lia.
Qed.

Lemma vdot_bigsum (n : nat) (x y : vec) :
  length x = n -> length y = n ->
  np.vdot x y = bigsum n (fun i => nth i x 0 * nth i y 0).
Proof.
  intros Hx Hy. unfold np.vdot. rewrite sum_bigsum, length_zipWith, Hx, Hy.
  rewrite Nat.min_id. apply bigsum_ext. intros i Hi.
  apply nth_zipWith; lia.
Qed.

Lemma length_setitem (i : nat) (a : R) (x : vec) :
  length (np.setitem i a x) = length x.
Proof.
  revert i. induction x as [|b x IH]; intros [|i]; simpl; auto.
Qed.

Lemma nth_setitem (i j : nat) (a : R) (x : vec) :
  (i < length x)%nat ->
  nth j (np.setitem i a x) 0 = if (j =? i)%nat then a else nth j x 0.
Proof.
  revert i j. induction x as [|b x IH]; intros [|i] [|j] Hi; simpl in *;
    try lia; auto.
  apply IH. lia.
Qed.

Lemma nth_repeat_lt {A} (a d : A) (n i : nat) :
  (i < n)%nat -> nth i (repeat a n) d = a.
Proof.
  revert i. induction n as [|n IH]; intros [|i] Hi; simpl; try lia; auto.
  apply IH. lia.
Qed.

Lemma length_enumerate {A} (x : list A) : length (np.enumerate x) = length x.
Proof.
  unfold np.enumerate. rewrite length_combine, length_seq. apply Nat.min_id.
Qed.

Lemma nth_enumerate_map {A B} (g : nat * A -> B) (x : list A) (i : nat)
      (da : A) (db : B) :
  (i < length x)%nat ->
  nth i (map g (np.enumerate x)) db = g (i, nth i x da).
Proof.
  intros Hi.
  rewrite (nth_indep _ db (g (0%nat, da)))
    by now rewrite length_map, length_enumerate.
  rewrite map_nth. unfold np.enumerate.
  rewrite combine_nth by now rewrite length_seq.
  now rewrite seq_nth.
Qed.

(* ================================================================== *)
(** ** Arrays by their entries                                          *)
(* ================================================================== *)

Lemma is_matrix_row (n m : nat) (M : matrix) (i : nat) :
  is_matrix n m M -> (i < n)%nat -> length (nth i M []) = m.
Proof.
  intros [Hn Hm] Hi. apply Hm, nth_In. lia.
Qed.

Lemma is_matrix_shape1 (n m : nat) (M : matrix) :
  is_matrix n m M -> (0 < n)%nat -> np.shape1 M = m.
Proof.
  intros [Hn Hm] Hpos. destruct M as [|r M]; simpl in *.
  - lia.
  - apply Hm. now left.
Qed.

Lemma is_matrix_repeat (n m : nat) (c : R) :
  is_matrix n m (repeat (repeat c m) n).
Proof.
  split.
  - apply repeat_length.
  - intros r Hr. apply repeat_spec in Hr. subst r. apply repeat_length.
Qed.

Lemma entry_repeat (n m : nat) (c : R) (i j : nat) :
  (i < n)%nat -> (j < m)%nat -> entry (repeat (repeat c m) n) i j = c.
Proof.
  intros Hi Hj. unfold entry. now rewrite !nth_repeat_lt.
Qed.

Lemma length_col (j : nat) (M : matrix) : length (np.col j M) = length M.
Proof.
  unfold np.col. apply length_map.
Qed.

Lemma nth_col (j i : nat) (M : matrix) :
  (i < length M)%nat -> nth i (np.col j M) 0 = entry M i j.
Proof.
  intros Hi. unfold np.col, entry.
  rewrite (nth_indep _ 0 (nth j [] 0)) by now rewrite length_map.
  now rewrite (map_nth (fun r => nth j r 0)).
Qed.

Lemma sum_col (n m : nat) (M : matrix) (j : nat) :
  is_matrix n m M ->
  np.sum (np.col j M) = bigsum n (fun i => entry M i j).
Proof.
  intros [Hn _]. rewrite sum_bigsum, length_col, Hn.
  apply bigsum_ext. intros i Hi. apply nth_col. lia.
Qed.

(** A row of a product, and an entry of it. *)
Lemma row_dot (A B : matrix) (i : nat) :
  (i < length A)%nat ->
  nth i (np.dot A B) [] =
  map (fun j => np.vdot (nth i A []) (np.col j B)) (seq 0 (np.shape1 B)).
Proof.
  intros Hi. unfold np.dot.
  rewrite (nth_indep _ []
             ((fun r => map (fun j => np.vdot r (np.col j B))
                            (seq 0 (np.shape1 B))) []))
    by now rewrite length_map.
  now rewrite (map_nth (fun r => map (fun j => np.vdot r (np.col j B))
                                     (seq 0 (np.shape1 B)))).
Qed.

Lemma entry_dot (n k m : nat) (A B : matrix) (i j : nat) :
  is_matrix n k A -> is_matrix k m B -> (0 < k)%nat ->
  (i < n)%nat -> (j < m)%nat ->
  entry (np.dot A B) i j = bigsum k (fun l => entry A i l * entry B l j).
Proof.
  intros HA HB Hk Hi Hj. unfold entry at 1.
  rewrite row_dot by (destruct HA; lia).
  rewrite (is_matrix_shape1 k m B HB Hk), nth_map_seq by assumption.
  rewrite (vdot_bigsum k).
  - apply bigsum_ext. intros l Hl. f_equal.
    apply nth_col. destruct HB. lia.
  - now apply (is_matrix_row n k).
  - rewrite length_col. now destruct HB.
Qed.

Lemma is_matrix_dot (n k m : nat) (A B : matrix) :
  length A = n -> is_matrix k m B -> (0 < k)%nat ->
  is_matrix n m (np.dot A B).
Proof.
  intros HA HB Hk. split.
  - unfold np.dot. now rewrite length_map.
  - intros r Hr. unfold np.dot in Hr. apply in_map_iff in Hr.
    destruct Hr as [r0 [<- _]].
    now rewrite length_map, length_seq, (is_matrix_shape1 k m B HB Hk).
Qed.

(** The column sums of a matrix. *)
Lemma sum0_bigsum (n m : nat) (M : matrix) :
  is_matrix n m M -> (0 < n)%nat ->
  np.sum0 M = map (fun j => bigsum n (fun i => entry M i j)) (seq 0 m).
Proof.
  intros HM Hn. unfold np.sum0. rewrite (is_matrix_shape1 n m M HM Hn).
  apply map_ext. intros j. now apply (sum_col n m).
Qed.

(** [fill_diagonal] row by row. *)
Lemma length_fill_diagonal (M : matrix) (d : vec) :
  length (np.fill_diagonal M d) = length M.
Proof.
  unfold np.fill_diagonal. now rewrite length_map, length_enumerate.
Qed.

Lemma length_fill_diagonal_scalar (M : matrix) (c : R) :
  length (np.fill_diagonal_scalar M c) = length M.
Proof.
  unfold np.fill_diagonal_scalar. now rewrite length_map, length_enumerate.
Qed.

Lemma row_fill_diagonal (M : matrix) (d : vec) (i : nat) :
  (i < length M)%nat ->
  nth i (np.fill_diagonal M d) [] = np.setitem i (nth i d 0) (nth i M []).
Proof.
  intros Hi. unfold np.fill_diagonal.
  now rewrite (nth_enumerate_map _ M i []).
Qed.

Lemma row_fill_diagonal_scalar (M : matrix) (c : R) (i : nat) :
  (i < length M)%nat ->
  nth i (np.fill_diagonal_scalar M c) [] = np.setitem i c (nth i M []).
Proof.
  intros Hi. unfold np.fill_diagonal_scalar.
  now rewrite (nth_enumerate_map _ M i []).
Qed.

Lemma is_matrix_fill_diagonal (n m : nat) (M : matrix) (d : vec) :
  is_matrix n m M -> is_matrix n m (np.fill_diagonal M d).
Proof.
  intros [Hn Hm]. split.
  - now rewrite length_fill_diagonal.
  - intros r Hr. apply (In_nth _ _ []) in Hr. destruct Hr as [i [Hi <-]].
    rewrite length_fill_diagonal in Hi.
    rewrite row_fill_diagonal, length_setitem by assumption.
    apply Hm, nth_In. assumption.
Qed.

Lemma is_matrix_fill_diagonal_scalar (n m : nat) (M : matrix) (c : R) :
  is_matrix n m M -> is_matrix n m (np.fill_diagonal_scalar M c).
Proof.
  intros [Hn Hm]. split.
  - now rewrite length_fill_diagonal_scalar.
  - intros r Hr. apply (In_nth _ _ []) in Hr. destruct Hr as [i [Hi <-]].
    rewrite length_fill_diagonal_scalar in Hi.
    rewrite row_fill_diagonal_scalar, length_setitem by assumption.
    apply Hm, nth_In. assumption.
Qed.

Lemma entry_fill_diagonal (n : nat) (M : matrix) (d : vec) (i j : nat) :
  is_matrix n n M -> (i < n)%nat ->
  entry (np.fill_diagonal M d) i j =
  if (j =? i)%nat then nth i d 0 else entry M i j.
Proof.
  intros HM Hi. unfold entry.
  rewrite row_fill_diagonal by (destruct HM; lia).
  apply nth_setitem. now rewrite (is_matrix_row n n).
Qed.

Lemma entry_fill_diagonal_scalar (n : nat) (M : matrix) (c : R) (i j : nat) :
  is_matrix n n M -> (i < n)%nat ->
  entry (np.fill_diagonal_scalar M c) i j =
  if (j =? i)%nat then c else entry M i j.
Proof.
  intros HM Hi. unfold entry.
  rewrite row_fill_diagonal_scalar by (destruct HM; lia).
  apply nth_setitem. now rewrite (is_matrix_row n n).
Qed.

Lemma is_matrix_eye (n : nat) : is_matrix n n (np.eye n).
Proof.
  apply is_matrix_fill_diagonal_scalar, is_matrix_repeat.
Qed.

Lemma entry_eye (n i j : nat) :
  (i < n)%nat -> (j < n)%nat ->
  entry (np.eye n) i j = if (j =? i)%nat then 1 else 0.
Proof.
  intros Hi Hj. unfold np.eye.
  rewrite (entry_fill_diagonal_scalar n);
    [| apply is_matrix_repeat | assumption].
  destruct (j =? i)%nat; auto. now apply entry_repeat.
Qed.

(* ================================================================== *)
(** ** Transition probability: the two guards                          *)
(* ================================================================== *)

Section Guards.

Variable env : Env.
Variables (profile_p profile_ch : matrix) (rotated : bool) (self : GTR).

(** [BIG_NUMBER] and [verbose] are bound nowhere in the module. *)
Lemma BIG_NUMBER_unbound : load_global "BIG_NUMBER" = Raise NameError.
Proof. reflexivity. Qed.

Lemma verbose_unbound : load_global "verbose" = Raise NameError.
Proof. reflexivity. Qed.

(** In plain form a negative time gives probability zero. *)
Lemma prob_t_negative_plain (t : R) :
  t < 0 ->
  prob_t env profile_p profile_ch t rotated false self = (Ok 0, self).
Proof.
  intros Ht. unfold prob_t. destruct (Rlt_dec t 0) as [_|Hn].
  - reflexivity.
  - contradiction.
Qed.

(** C4, at the log form: for a negative time and [return_log=True] the
    call does not return a large negative value; reading the unbound name
    [BIG_NUMBER] raises [NameError], for every pair of profiles. *)
Theorem prob_t_negative_log_raises (t : R) :
  t < 0 ->
  prob_t env profile_p profile_ch t rotated true self = (Raise NameError, self).
Proof.
  intros Ht. unfold prob_t. destruct (Rlt_dec t 0) as [_|Hn].
  - reflexivity.
  - contradiction.
Qed.

(** C5: for every time [t >= 0], a parent and a child profile with
    different numbers of sites make the call fail with the
    dimension-mismatch error ([ValueError]), and the model is left as it
    was. *)
Theorem prob_t_site_count_mismatch (t : R) (return_log : bool) :
  0 <= t ->
  np.shape0 profile_p <> np.shape0 profile_ch ->
  prob_t env profile_p profile_ch t rotated return_log self
  = (Raise DimensionMismatchError, self).
Proof.
  intros Ht Hne. unfold prob_t.
  destruct (Rlt_dec t 0) as [Hlt|_].
  - lra.
  - apply Nat.eqb_neq in Hne. rewrite Hne. reflexivity.
Qed.

(** C10: the test on the sign of the time does come before the test on
    the site counts, but the negative-time branch returns its result in
    plain form only.  For every negative time and every pair of profiles,
    whether or not their site counts agree, the plain call returns [0] and
    leaves the model alone, while the call with [return_log=True] returns
    nothing: it raises [NameError] on the unbound name [BIG_NUMBER], which
    is not the dimension-mismatch error either. *)
Theorem prob_t_negative_time_first (t : R) :
  t < 0 ->
  prob_t env profile_p profile_ch t rotated false self = (Ok 0, self) /\
  prob_t env profile_p profile_ch t rotated true self
  = (Raise NameError, self) /\
  NameError <> DimensionMismatchError.
Proof.
  intros Ht. unfold prob_t. destruct (Rlt_dec t 0) as [_|Hn].
  - split; [reflexivity | split; [reflexivity | discriminate]].
  - contradiction.
Qed.

End Guards.

Lemma prob_t_negative_log_raises_witness :
  -1 < 0 /\
  prob_t Sample.env Sample.site_A Sample.two_sites (-1) false true Sample.JC
  = (Raise NameError, Sample.JC).
Proof.
  split.
  - lra.
  - apply prob_t_negative_log_raises. lra.
Defined.

Lemma prob_t_site_count_mismatch_witness :
  0 <= 1 /\
  np.shape0 Sample.site_A <> np.shape0 Sample.two_sites /\
  prob_t Sample.env Sample.site_A Sample.two_sites 1 false false Sample.JC
  = (Raise DimensionMismatchError, Sample.JC).
Proof.
  split; [lra | split].
  - simpl. lia.
  - apply prob_t_site_count_mismatch.
    + lra.
    + simpl. lia.
Defined.

Lemma prob_t_negative_time_first_witness :
  -1 < 0 /\
  np.shape0 Sample.site_A <> np.shape0 Sample.two_sites /\
  prob_t Sample.env Sample.site_A Sample.two_sites (-1) false false Sample.JC
  = (Ok 0, Sample.JC) /\
  prob_t Sample.env Sample.site_A Sample.two_sites (-1) false true Sample.JC
  = (Raise NameError, Sample.JC).
Proof.
  split; [lra | split; [simpl; lia |]].
  destruct (prob_t_negative_time_first Sample.env Sample.site_A
              Sample.two_sites false Sample.JC (-1)) as [H1 [H2 _]].
  - lra.
  - split; assumption.
Defined.

(* ================================================================== *)
(** ** Construction: the constructor and the factory                   *)
(* ================================================================== *)

Section Construction.

Variable env : Env.

(** The constructor refuses an alphabet name that is not in the table,
    and no object comes back. *)
Lemma init_unknown_alphabet (alphabet_type : string) :
  alphabets env alphabet_type = None ->
  __init__ env alphabet_type = Raise AttributeError /\
  ConfigurationError AttributeError.
Proof.
  intros H. unfold __init__. rewrite H. split.
  - reflexivity.
  - now left.
Qed.

(** Without the alphabet option, the factory refuses a preset name other
    than the two it knows. *)
Lemma standard_unknown_preset (model : string) (rate : option R) :
  model <> "Jukes-Cantor" -> model <> "random" ->
  standard env model {| kw_alphabet := None; kw_mu := rate |}
  = Raise NotImplementedError /\
  ConfigurationError NotImplementedError.
Proof.
  intros H1 H2. unfold standard. simpl.
  apply String.eqb_neq in H1, H2. rewrite H1, H2. split.
  - reflexivity.
  - now right.
Qed.

(** C7: a call of the factory that supplies the alphabet option returns
    no model at all.  The test of the option reads the local variable
    [alphabet] before anything is assigned to it, so the call raises
    [UnboundLocalError], whatever the preset, the alphabet and the rate. *)
Theorem standard_alphabet_option_raises
        (model given : string) (rate : option R) :
  standard env model {| kw_alphabet := Some given; kw_mu := rate |}
  = Raise UnboundLocalError.
Proof.
  reflexivity.
Qed.

(** C6, at an unknown preset requested together with an alphabet: the
    call fails, but with [UnboundLocalError], which is not one of the
    configuration errors. *)
Theorem standard_unknown_preset_with_alphabet :
  standard env "K80" {| kw_alphabet := Some "nuc"; kw_mu := None |}
  = Raise UnboundLocalError /\
  ~ ConfigurationError UnboundLocalError.
Proof.
  split.
  - reflexivity.
  - intros [H|H]; discriminate H.
Qed.

End Construction.

(* ================================================================== *)
(** ** Branch-length optimization                                       *)
(* ================================================================== *)

Section Optimization.

Variable env : Env.
Variables (profile_p profile_ch : matrix) (rotated return_log : bool).
Variable self : GTR.

(** The objective handed to the optimizer. *)
Let objective : R -> result R := fun t =>
  p <- fst (prob_t env profile_p profile_ch t false true self) ;;
  Ok (-1 * p).

(** When the optimizer converges below nine tenths of the bound, its
    optimum is returned. *)
Lemma optimal_t_success (opt : OptimizeResult) :
  minimize_scalar env objective 0 (MAX_BRANCH_LENGTH env) = Ok opt ->
  opt_x opt <= 0.9 * MAX_BRANCH_LENGTH env ->
  opt_success opt = true ->
  optimal_t env profile_p profile_ch rotated return_log self
  = (Ok (opt_x opt), self).
Proof.
  intros Hopt Hx Hs. unfold optimal_t. fold objective. rewrite Hopt, Hs.
  destruct (Rgt_dec (opt_x opt) (0.9 * MAX_BRANCH_LENGTH env)) as [Hgt|_].
  - lra.
  - reflexivity.
Qed.

(** C3, at a failed optimization: when the optimizer does not converge,
    or its optimum lies above nine tenths of the bound, the call does not
    return [-1.0]; the failure branch first reads the unbound name
    [verbose], and the call raises [NameError]. *)
Theorem optimal_t_failure_raises (opt : OptimizeResult) :
  minimize_scalar env objective 0 (MAX_BRANCH_LENGTH env) = Ok opt ->
  opt_x opt > 0.9 * MAX_BRANCH_LENGTH env \/ opt_success opt = false ->
  optimal_t env profile_p profile_ch rotated return_log self
  = (Raise NameError, self).
Proof.
  intros Hopt Hfail. unfold optimal_t. fold objective. rewrite Hopt.
  destruct (Rgt_dec (opt_x opt) (0.9 * MAX_BRANCH_LENGTH env)) as [Hgt|Hle].
  - reflexivity.
  - destruct Hfail as [Hgt|Hs].
    + contradiction.
    + rewrite Hs. reflexivity.
Qed.

End Optimization.

Lemma optimal_t_failure_raises_witness :
  opt_success {| opt_x := 1.5; opt_success := false |} = false /\
  optimal_t Sample.env Sample.site_A Sample.site_A false false Sample.JC
  = (Raise NameError, Sample.JC).
Proof.
  split; [reflexivity |].
  apply (optimal_t_failure_raises Sample.env Sample.site_A Sample.site_A
           false false Sample.JC {| opt_x := 1.5; opt_success := false |}).
  - reflexivity.
  - right. reflexivity.
Defined.

(* ================================================================== *)
(** ** Validation of the rate matrix                                    *)
(* ================================================================== *)

Lemma count_lt_all (x : vec) (c : R) :
  Forall (fun s => s < c) x -> np.count_lt x c = length x.
Proof.
  unfold np.count_lt. induction 1 as [|s x Hs _ IH]; simpl.
  - reflexivity.
  - destruct (Rlt_dec s c) as [_|Hn]; [| contradiction].
    simpl. now rewrite IH.
Qed.

Lemma count_lt_le (x : vec) (c : R) : (np.count_lt x c <= length x)%nat.
Proof.
  unfold np.count_lt. apply filter_length_le.
Qed.

Lemma count_lt_full (x : vec) (c : R) :
  np.count_lt x c = length x -> Forall (fun s => s < c) x.
Proof.
  unfold np.count_lt. induction x as [|s x IH]; simpl; intros H.
  - constructor.
  - destruct (Rlt_dec s c) as [Hs|Hn]; simpl in H.
    + constructor; [assumption | apply IH; lia].
    + pose proof (filter_length_le
                    (fun a => if Rlt_dec a c then true else false) x).
      lia.
Qed.

(** [_check_fix_Q] by its two tests. *)
Lemma check_fix_Q_unfold (g : GTR) :
  _check_fix_Q g =
  if rate_is_wrong g then
    if rate_is_wrong (fix_Q g) then (Raise ArithmeticError, fix_Q g)
    else (Ok tt, fix_Q g)
  else (Ok tt, g).
Proof.
  reflexivity.
Qed.

(** When every column sum lies below the tolerance, the check leaves the
    model alone. *)
Lemma check_fix_Q_pass (g : GTR) :
  columns_sum_below g ->
  length (np.sum0 (np.dot (Pi g) (W g))) = length (alphabet g) ->
  _check_fix_Q g = (Ok tt, g).
Proof.
  intros Hall Hlen. rewrite check_fix_Q_unfold. unfold rate_is_wrong.
  rewrite (count_lt_all _ _ Hall), Hlen, Nat.ltb_irrefl. reflexivity.
Qed.

(** A model that comes out of the check passes its test. *)
Lemma check_fix_Q_returns (g g' : GTR) :
  _check_fix_Q g = (Ok tt, g') ->
  rate_is_wrong g' = false /\ (g' = g \/ g' = fix_Q g).
Proof.
  rewrite check_fix_Q_unfold.
  destruct (rate_is_wrong g) eqn:E1.
  - destruct (rate_is_wrong (fix_Q g)) eqn:E2; intros H; inversion H.
    subst g'. auto.
  - intros H. inversion H. subst g'. auto.
Qed.

Lemma length_sum0_dot (a : nat) (P M : matrix) :
  length P = a -> is_matrix a a M ->
  length (np.sum0 (np.dot P M)) = a.
Proof.
  intros HP HM. unfold np.sum0. rewrite length_map, length_seq.
  destruct (Nat.eq_dec a 0) as [Hz|Hz].
  - destruct P; [simpl; lia | simpl in HP; lia].
  - apply (is_matrix_shape1 a a); [| lia].
    apply (is_matrix_dot a a a); auto; lia.
Qed.

(** What the check guarantees of a model with square matrices: the
    one-sided test, every column sum below the tolerance. *)
Lemma check_fix_Q_below (g g' : GTR) :
  length (Pi g) = length (alphabet g) ->
  is_matrix (length (alphabet g)) (length (alphabet g)) (W g) ->
  _check_fix_Q g = (Ok tt, g') ->
  columns_sum_below g'.
Proof.
  intros HPi HW Hrun.
  destruct (check_fix_Q_returns g g' Hrun) as [Hpass Hwhich].
  assert (Hlen : length (np.sum0 (np.dot (Pi g') (W g')))
                 = length (alphabet g')).
  { destruct Hwhich as [-> | ->].
    - now apply length_sum0_dot.
    - simpl. apply length_sum0_dot.
      + unfold np.div_scalar. now rewrite length_map.
      + apply is_matrix_fill_diagonal, is_matrix_fill_diagonal_scalar, HW. }
  unfold rate_is_wrong in Hpass. apply Nat.ltb_ge in Hpass.
  apply count_lt_full.
  pose proof (count_lt_le (np.sum0 (np.dot (Pi g') (W g'))) 1e-10).
  lia.
Qed.

(** C1, at a model assigned by hand: the object made by the constructor,
    given a uniform equilibrium and an exchangeability matrix with diagonal
    [-5], has columns of [Q = Pi.dot(W)] that sum to [-1/2].  The check
    tests [sum < 1e-10] and not the distance from zero: it neither repairs
    the matrix nor raises, and the model it accepts violates the generator
    invariant. *)
Theorem check_fix_Q_accepts_negative_sums :
  (g <- __init__ Sample.env "nuc" ;;
   Ok (set_Pi (set_W g (W Sample.steep)) (Pi Sample.steep)))
  = Ok Sample.steep /\
  _check_fix_Q Sample.steep = (Ok tt, Sample.steep) /\
  np.sum0 (np.dot (Pi Sample.steep) (W Sample.steep))
  = [-1/2; -1/2; -1/2; -1/2] /\
  ~ columns_sum_to_zero Sample.steep.
Proof.
  assert (Hsums : np.sum0 (np.dot (Pi Sample.steep) (W Sample.steep))
                  = [-1/2; -1/2; -1/2; -1/2]).
  { cbn. repeat (f_equal; try lra). }
  split; [reflexivity | split; [| split]].
  - apply check_fix_Q_pass.
    + unfold columns_sum_below. rewrite Hsums.
      repeat constructor; lra.
    + rewrite Hsums. reflexivity.
  - exact Hsums.
  - unfold columns_sum_to_zero. rewrite Hsums. intros H.
    inversion H as [|s x Hs _]. subst.
    rewrite Rabs_left in Hs; lra.
Qed.

(* ================================================================== *)
(** ** The uniform (Jukes-Cantor) preset                                *)
(* ================================================================== *)

Lemma bigsum_diag (n j : nat) (c d : R) :
  (j < n)%nat ->
  bigsum n (fun i => if (j =? i)%nat then c else d) = c + (INR n - 1) * d.
Proof.
  intros Hj.
  rewrite (bigsum_ext n _
             (fun i => d + (if (i =? j)%nat then c - d else 0) * 1)).
  - rewrite bigsum_plus, bigsum_const, bigsum_pick by assumption. lra.
  - intros i _. rewrite (Nat.eqb_sym j i).
    destruct (i =? j)%nat; lra.
Qed.

Section JukesCantor.

Variable env : Env.
Variable nuc : list ascii.
Hypothesis nuc_known : alphabets env "nuc" = Some nuc.

Let a : nat := length nuc.
Hypothesis nuc_inhabited : (0 < a)%nat.

(** The two matrices as the factory assigns them. *)
Let W_uniform : matrix :=
  np.fill_diagonal (np.ones2 a a)
    (np.vneg (np.vsub_scalar (np.sum0 (np.ones2 a a)) 1)).
Let Pi_uniform : matrix :=
  np.fill_diagonal_scalar (np.zeros2 a a) (1 / INR a).

Lemma is_matrix_W_uniform : is_matrix a a W_uniform.
Proof.
  apply is_matrix_fill_diagonal, is_matrix_repeat.
Qed.

Lemma is_matrix_Pi_uniform : is_matrix a a Pi_uniform.
Proof.
  apply is_matrix_fill_diagonal_scalar, is_matrix_repeat.
Qed.

Lemma entry_W_uniform (i j : nat) :
  (i < a)%nat -> (j < a)%nat ->
  entry W_uniform i j = if (j =? i)%nat then - (INR a - 1) else 1.
Proof.
  intros Hi Hj. unfold W_uniform.
  rewrite (entry_fill_diagonal a); [| apply is_matrix_repeat | assumption].
  destruct (j =? i)%nat.
  - rewrite (sum0_bigsum a a); [| apply is_matrix_repeat | assumption].
    unfold np.vneg, np.vsub_scalar. rewrite !map_map.
    rewrite nth_map_seq by assumption. f_equal. f_equal.
    rewrite (bigsum_ext a _ (fun _ => 1)).
    + rewrite bigsum_const. lra.
    + intros k Hk. now apply entry_repeat.
  - now apply entry_repeat.
Qed.

Lemma entry_Pi_uniform (i j : nat) :
  (i < a)%nat -> (j < a)%nat ->
  entry Pi_uniform i j = if (j =? i)%nat then 1 / INR a else 0.
Proof.
  intros Hi Hj. unfold Pi_uniform.
  rewrite (entry_fill_diagonal_scalar a);
    [| apply is_matrix_repeat | assumption].
  destruct (j =? i)%nat; auto. now apply entry_repeat.
Qed.

(** The generator of the uniform model is [W / a]. *)
Lemma entry_Q_uniform (i j : nat) :
  (i < a)%nat -> (j < a)%nat ->
  entry (np.dot Pi_uniform W_uniform) i j = 1 / INR a * entry W_uniform i j.
Proof.
  intros Hi Hj.
  rewrite (entry_dot a a a);
    auto using is_matrix_Pi_uniform, is_matrix_W_uniform.
  rewrite (bigsum_ext a _
             (fun l => (if (l =? i)%nat then 1 / INR a else 0)
                       * entry W_uniform l j)).
  - now rewrite (bigsum_pick a i (1 / INR a) (fun l => entry W_uniform l j)).
  - intros l Hl. now rewrite entry_Pi_uniform.
Qed.

(** Its columns sum to zero, exactly. *)
Lemma sum0_Q_uniform :
  np.sum0 (np.dot Pi_uniform W_uniform) = repeat 0 a.
Proof.
  assert (HQ : is_matrix a a (np.dot Pi_uniform W_uniform)).
  { apply (is_matrix_dot a a a); auto using is_matrix_W_uniform.
    now destruct is_matrix_Pi_uniform. }
  rewrite (sum0_bigsum a a) by assumption.
  apply (nth_ext _ _ 0 0).
  - now rewrite length_map, length_seq, repeat_length.
  - intros j Hj. rewrite length_map, length_seq in Hj.
    rewrite nth_map_seq, nth_repeat_lt by assumption.
    rewrite (bigsum_ext a _
               (fun i => 1 / INR a *
                         (if (j =? i)%nat then - (INR a - 1) else 1))).
    + rewrite bigsum_scal, bigsum_diag by assumption. lra.
    + intros i Hi. now rewrite entry_Q_uniform, entry_W_uniform.
Qed.

(** The check finds nothing to repair in the uniform model. *)
Lemma check_fix_Q_uniform (g : GTR) :
  alphabet g = nuc -> W g = W_uniform -> Pi g = Pi_uniform ->
  _check_fix_Q g = (Ok tt, g) /\ columns_sum_to_zero g.
Proof.
  intros Halpha HW HPi. split.
  - apply check_fix_Q_pass.
    + unfold columns_sum_below. rewrite HW, HPi, sum0_Q_uniform.
      apply Forall_forall. intros s Hs. apply repeat_spec in Hs. lra.
    + rewrite HW, HPi, sum0_Q_uniform, repeat_length, Halpha. reflexivity.
  - unfold columns_sum_to_zero. rewrite HW, HPi, sum0_Q_uniform.
    apply Forall_forall. intros s Hs. apply repeat_spec in Hs. subst s.
    rewrite Rabs_R0. lra.
Qed.

Variables (eigvals : vec) (eigvecs eigvecs_inv : matrix).
Hypothesis eig_returns :
  linalg_eig env (np.dot Pi_uniform W_uniform) = Ok (eigvals, eigvecs).
Hypothesis inv_returns : linalg_inv env eigvecs = Ok eigvecs_inv.

(** The model the factory returns for the preset, called without the
    alphabet option. *)
Lemma standard_uniform (rate : option R) :
  standard env "Jukes-Cantor" {| kw_alphabet := None; kw_mu := rate |}
  = Ok {| alphabet_type := "nuc";
          alphabet := nuc;
          W := W_uniform;
          Pi := Pi_uniform;
          mu := match rate with Some m => m | None => 1 end;
          v := eigvecs;
          v_inv := eigvecs_inv;
          eigenmat := eigvals;
          dm := None |}.
Proof.
  unfold standard, __init__. cbn -[np.fill_diagonal np.fill_diagonal_scalar
    np.sum0 np.ones2 np.zeros2 np.dot _check_fix_Q String.eqb].
  rewrite nuc_known.
  cbn -[np.fill_diagonal np.fill_diagonal_scalar
    np.sum0 np.ones2 np.zeros2 np.dot _check_fix_Q].
  fold a.
  assert (Hs0 : length W_uniform = a) by (now destruct is_matrix_W_uniform).
  assert (Hs1 : np.shape1 W_uniform = a)
    by (apply (is_matrix_shape1 a a); auto using is_matrix_W_uniform).
  fold W_uniform. rewrite Hs0, Hs1.
  destruct (Nat.eqb_spec a 0) as [Hz|_]; [lia |].
  cbn -[np.fill_diagonal np.fill_diagonal_scalar
    np.sum0 np.ones2 np.zeros2 np.dot _check_fix_Q].
  fold Pi_uniform. unfold call.
  match goal with
  | |- context [_check_fix_Q ?g] =>
      destruct (check_fix_Q_uniform g eq_refl eq_refl eq_refl) as [-> _]
  end.
  cbn -[np.dot]. unfold _eig. cbn -[np.dot].
  rewrite eig_returns. cbn -[np.dot]. rewrite inv_returns. reflexivity.
Qed.

(** C8: the uniform (Jukes-Cantor) model that the factory returns, over
    an alphabet of [a] symbols, has exchangeability [1] off the diagonal
    and [-(a-1)] on it, and equilibrium [1/a] on the diagonal (and [0]
    off it). *)
Theorem standard_uniform_entries (rate : option R) :
  exists gtr,
    standard env "Jukes-Cantor" {| kw_alphabet := None; kw_mu := rate |}
    = Ok gtr /\
    length (alphabet gtr) = a /\
    forall i j, (i < a)%nat -> (j < a)%nat ->
      entry (W gtr) i j = (if (i =? j)%nat then - (INR a - 1) else 1) /\
      entry (Pi gtr) i j = (if (i =? j)%nat then 1 / INR a else 0).
Proof.
  eexists. split; [apply standard_uniform | split; [reflexivity |]].
  intros i j Hi Hj. simpl.
  rewrite entry_W_uniform, entry_Pi_uniform by assumption.
  now rewrite (Nat.eqb_sym i j).
Qed.

End JukesCantor.

Lemma standard_uniform_entries_witness :
  exists gtr,
    standard Sample.env "Jukes-Cantor" Sample.no_kwargs = Ok gtr /\
    length (alphabet gtr) = 4%nat /\
    forall i j, (i < 4)%nat -> (j < 4)%nat ->
      entry (W gtr) i j = (if (i =? j)%nat then - (INR 4 - 1) else 1) /\
      entry (Pi gtr) i j = (if (i =? j)%nat then 1 / INR 4 else 0).
Proof.
  apply (standard_uniform_entries Sample.env Sample.nuc eq_refl
           (Nat.lt_0_succ 3) Sample.eigvals Sample.eigvecs Sample.eigvecs_inv
           eq_refl eq_refl None).
Defined.

(* ================================================================== *)
(** ** Rotation into the eigenspace and back                            *)
(* ================================================================== *)

Lemma zipWith_map {A B C D E} (h : C -> D -> E) (f : A -> C) (g : B -> D)
      (x : list A) (y : list B) :
  np.zipWith h (map f x) (map g y) = np.zipWith (fun a b => h (f a) (g b)) x y.
Proof.
  revert y. induction x as [|a x IH]; intros [|b y]; simpl; auto.
  now rewrite IH.
Qed.

Lemma map_zipWith {A B C D} (h : C -> D) (f : A -> B -> C)
      (x : list A) (y : list B) :
  map h (np.zipWith f x y) = np.zipWith (fun a b => h (f a b)) x y.
Proof.
  revert y. induction x as [|a x IH]; intros [|b y]; simpl; auto.
  now rewrite IH.
Qed.

Lemma zipWith_ext_in {A B C} (f g : A -> B -> C) (x : list A) (y : list B) :
  (forall a b, In a x -> In b y -> f a b = g a b) ->
  np.zipWith f x y = np.zipWith g x y.
Proof.
  revert y. induction x as [|a x IH]; intros [|b y] H; simpl; auto.
  rewrite H by (now left). rewrite IH; auto.
  intros a' b' Ha Hb. apply H; now right.
Qed.

Lemma zipWith_diag {A C} (f : A -> A -> C) (x : list A) :
  np.zipWith f x x = map (fun a => f a a) x.
Proof.
  induction x as [|a x IH]; simpl; auto. now rewrite IH.
Qed.

Lemma zipWith_ones_l (n : nat) (y : vec) :
  length y = n -> np.zipWith Rmult (repeat 1 n) y = y.
Proof.
  revert y. induction n as [|n IH]; intros [|b y] H; simpl in *; try lia; auto.
  rewrite IH by lia. f_equal. lra.
Qed.

Lemma zipWith_ones_r (n : nat) (y : vec) :
  length y = n -> np.zipWith Rmult y (repeat 1 n) = y.
Proof.
  revert y. induction n as [|n IH]; intros [|b y] H; simpl in *; try lia; auto.
  rewrite IH by lia. f_equal. lra.
Qed.

Lemma map_const {A B} (c : B) (x : list A) :
  map (fun _ => c) x = repeat c (length x).
Proof.
  induction x as [|a x IH]; simpl; auto. now rewrite IH.
Qed.

Lemma length_matvec (M : matrix) (x : vec) : length (matvec M x) = length M.
Proof.
  unfold matvec. apply length_map.
Qed.

Lemma nth_matvec (M : matrix) (x : vec) (i : nat) :
  (i < length M)%nat -> nth i (matvec M x) 0 = np.vdot (nth i M []) x.
Proof.
  intros Hi. unfold matvec.
  rewrite (nth_indep _ 0 ((fun r => np.vdot r x) []))
    by now rewrite length_map.
  now rewrite (map_nth (fun r => np.vdot r x)).
Qed.

(** The transpose of a list of rows of one length. *)
Lemma T_rows {A} (g : A -> vec) (N : list A) (L : nat) :
  N <> [] -> (forall x, In x N -> length (g x) = L) ->
  np.T (map g N) = map (fun l => map (fun x => nth l (g x) 0) N) (seq 0 L).
Proof.
  intros HN Hlen. unfold np.T.
  assert (Hs : np.shape1 (map g N) = L).
  { destruct N as [|x N]; [contradiction |]. simpl. apply Hlen. now left. }
  rewrite Hs. apply map_ext. intros l. unfold np.col. now rewrite map_map.
Qed.

(** The transpose of a profile with at least one site: its shape and its
    columns. *)
Lemma shape1_T (a : nat) (p : matrix) :
  p <> [] -> (0 < a)%nat -> (forall r, In r p -> length r = a) ->
  np.shape1 (np.T p) = length p.
Proof.
  intros Hne Ha Hp. unfold np.T.
  assert (Hs : np.shape1 p = a).
  { destruct p as [|r p]; [contradiction |]. apply Hp. now left. }
  rewrite Hs. destruct a as [|a]; [lia |].
  simpl. apply length_col.
Qed.

Lemma col_T (a : nat) (p : matrix) (l : nat) :
  (l < length p)%nat -> (forall r, In r p -> length r = a) ->
  np.col l (np.T p) = nth l p [].
Proof.
  intros Hl Hp. unfold np.T.
  assert (Hs : np.shape1 p = a).
  { destruct p as [|r p]; [simpl in Hl; lia |]. apply Hp. now left. }
  rewrite Hs. unfold np.col at 1. rewrite map_map.
  rewrite (map_ext _ (fun j => nth j (nth l p []) 0)).
  - rewrite <- (Hp (nth l p [])) by now apply nth_In.
    apply map_nth_seq.
  - intros j. now apply nth_col.
Qed.

(** [(N.dot(p.T)).T]: the matrix [N] applied to every row of [p]. *)
Lemma T_dot_T (a : nat) (N p : matrix) :
  N <> [] -> (0 < a)%nat -> (forall r, In r p -> length r = a) ->
  np.T (np.dot N (np.T p)) = map (matvec N) p.
Proof.
  intros HN Ha Hp.
  assert (Hcase : p = [] \/ p <> [])
    by (destruct p; [now left | right; discriminate]).
  destruct Hcase as [->|Hne].
  - destruct N as [|n0 N]; [contradiction | reflexivity].
  - unfold np.dot. rewrite (shape1_T a) by assumption.
    rewrite (map_ext _ (fun nr => map (np.vdot nr) p)).
    + etransitivity.
      * apply (T_rows (fun nr => map (np.vdot nr) p) N (length p)).
        -- assumption.
        -- intros nr _. apply length_map.
      * rewrite <- (@map_seq_rows vec vec [] (matvec N) p).
        apply map_ext_in. intros l Hl. apply in_seq in Hl.
        unfold matvec. apply map_ext. intros nr.
        rewrite (nth_indep _ 0 (np.vdot nr [])) by (rewrite length_map; lia).
        now rewrite (map_nth (np.vdot nr)).
    + intros nr. rewrite <- (@map_seq_rows vec R [] (np.vdot nr) p).
      apply map_ext_in. intros l Hl. apply in_seq in Hl.
      f_equal. apply (col_T a); [lia | assumption].
Qed.

Lemma length_vecmat (k m : nat) (x : vec) (M : matrix) :
  is_matrix k m M -> (0 < k)%nat -> length (vecmat x M) = m.
Proof.
  intros HM Hk. unfold vecmat.
  now rewrite length_map, length_seq, (is_matrix_shape1 k m).
Qed.

Lemma nth_vecmat (k m : nat) (x : vec) (M : matrix) (j : nat) :
  is_matrix k m M -> (0 < k)%nat -> length x = k -> (j < m)%nat ->
  nth j (vecmat x M) 0 = bigsum k (fun l => nth l x 0 * entry M l j).
Proof.
  intros HM Hk Hx Hj. unfold vecmat.
  rewrite (is_matrix_shape1 k m M HM Hk), nth_map_seq by assumption.
  rewrite (vdot_bigsum k); [| assumption | rewrite length_col; now destruct HM].
  apply bigsum_ext. intros l Hl. f_equal. apply nth_col. destruct HM. lia.
Qed.

Lemma nth_matvec_bigsum (k m : nat) (M : matrix) (x : vec) (i : nat) :
  is_matrix k m M -> length x = m -> (i < k)%nat ->
  nth i (matvec M x) 0 = bigsum m (fun l => entry M i l * nth l x 0).
Proof.
  intros HM Hx Hi. rewrite nth_matvec by (destruct HM; lia).
  apply vdot_bigsum; [now apply (is_matrix_row k m) | assumption].
Qed.

(** A row times a matrix, against a column: the matrix may be moved to the
    column. *)
Lemma vdot_vecmat (k m : nat) (x y : vec) (M : matrix) :
  is_matrix k m M -> (0 < k)%nat -> length x = k -> length y = m ->
  np.vdot (vecmat x M) y = np.vdot x (matvec M y).
Proof.
  intros HM Hk Hx Hy.
  rewrite (vdot_bigsum m);
    [| now apply (length_vecmat k m) | assumption].
  rewrite (vdot_bigsum k);
    [| assumption | rewrite length_matvec; now destruct HM].
  rewrite (bigsum_ext m _
             (fun j => bigsum k (fun l => nth l x 0 * entry M l j
                                          * nth j y 0))).
  - rewrite bigsum_swap. apply bigsum_ext. intros l Hl.
    rewrite (nth_matvec_bigsum k m) by assumption.
    rewrite <- bigsum_scal. apply bigsum_ext. intros j _. lra.
  - intros j Hj. rewrite (nth_vecmat k m) by assumption.
    rewrite Rmult_comm, <- bigsum_scal. apply bigsum_ext. intros l _. lra.
Qed.

Section Inverse.

Variable a : nat.
Variables V Vi : matrix.
Hypothesis a_pos : (0 < a)%nat.
Hypothesis HV : is_matrix a a V.
Hypothesis HVi : is_matrix a a Vi.
Hypothesis V_Vi : np.dot V Vi = np.eye a.

(** Rotating into the eigenspace and back gives the column back. *)
Lemma matvec_inverse (x : vec) :
  length x = a -> matvec V (matvec Vi x) = x.
Proof.
  intros Hx. apply (nth_ext _ _ 0 0).
  - rewrite length_matvec. destruct HV. lia.
  - intros j Hj. rewrite length_matvec in Hj.
    assert (Hja : (j < a)%nat) by (destruct HV; lia).
    rewrite (nth_matvec_bigsum a a);
      [| assumption | rewrite length_matvec; now destruct HVi | assumption].
    rewrite (bigsum_ext a _
               (fun i => bigsum a (fun k => entry V j i * entry Vi i k
                                            * nth k x 0))).
    + rewrite bigsum_swap.
      rewrite (bigsum_ext a _
                 (fun k => (if (k =? j)%nat then 1 else 0) * nth k x 0)).
      * rewrite (bigsum_pick a j 1 (fun k => nth k x 0)) by assumption. lra.
      * intros k Hk.
        rewrite <- (entry_eye a j k), <- V_Vi by assumption.
        rewrite (entry_dot a a a) by assumption.
        rewrite Rmult_comm, <- bigsum_scal.
        apply bigsum_ext. intros i _. lra.
    + intros i Hi. rewrite (nth_matvec_bigsum a a) by assumption.
      rewrite <- bigsum_scal. apply bigsum_ext. intros k _. lra.
Qed.

(** One site at zero time: the rotated parent against the rotated child,
    with all decay factors equal to one, is the inner product of the two
    rows. *)
Lemma site_probability_zero_time (r c : vec) :
  length r = a -> length c = a ->
  np.sum (np.zipWith Rmult (np.zipWith Rmult (vecmat r V) (repeat 1 a))
                     (matvec Vi c))
  = np.vdot r c.
Proof.
  intros Hr Hc.
  rewrite zipWith_ones_r by now apply (length_vecmat a a).
  change (np.vdot (vecmat r V) (matvec Vi c) = np.vdot r c).
  rewrite (vdot_vecmat a a);
    [| assumption | assumption | assumption
     | rewrite length_matvec; now destruct HVi].
  now rewrite matvec_inverse.
Qed.

End Inverse.

(* ================================================================== *)
(** ** Zero elapsed time                                                *)
(* ================================================================== *)

Lemma exp_lt_zero (g : GTR) :
  _exp_lt g 0 = repeat 1 (length (eigenmat g)).
Proof.
  unfold _exp_lt, np.exp. rewrite map_map, <- map_const.
  apply map_ext. intros lam.
  replace (mu g * 0 * lam) with 0 by ring. apply exp_0.
Qed.

Lemma prod_ones (n : nat) : np.prod (repeat 1 n) = 1.
Proof.
  induction n as [|n IH]; simpl.
  - reflexivity.
  - rewrite IH. lra.
Qed.

Lemma vdot_one_hot (r : vec) : one_hot r -> np.vdot r r = 1.
Proof.
  intros [k [Hk Hr]]. set (n := length r) in *.
  assert (Hn : length r = n) by reflexivity.
  rewrite (vdot_bigsum n) by assumption.
  rewrite (bigsum_ext n _
             (fun i => (if (i =? k)%nat then 1 else 0) * nth i r 0)).
  - rewrite (bigsum_pick n k 1 (fun i => nth i r 0)) by assumption.
    rewrite Hr, nth_setitem by (unfold np.zeros; now rewrite repeat_length).
    rewrite Nat.eqb_refl. lra.
  - intros i Hi. f_equal. rewrite Hr at 1.
    rewrite nth_setitem by (unfold np.zeros; now rewrite repeat_length).
    destruct (i =? k)%nat; [reflexivity |].
    unfold np.zeros. now apply nth_repeat_lt.
Qed.

Section ZeroTime.

Variable env : Env.
Variable a : nat.
Variable g : GTR.
Hypothesis a_pos : (0 < a)%nat.
Hypothesis g_exact : eig_exact a g.

Lemma v_inv_nonempty : v_inv g <> [].
Proof.
  destruct g_exact as [_ [[Hlen _] _]]. intros E. rewrite E in Hlen.
  simpl in Hlen. lia.
Qed.

Lemma v_nonempty : v g <> [].
Proof.
  destruct g_exact as [[Hlen _] _]. intros E. rewrite E in Hlen.
  simpl in Hlen. lia.
Qed.

(** At zero time the probability is the product over the sites of the
    inner product of the parent row and the child row. *)
Lemma prob_t_zero_time (profile_p profile_ch : matrix) :
  (forall r, In r profile_p -> length r = a) ->
  (forall r, In r profile_ch -> length r = a) ->
  length profile_p = length profile_ch ->
  prob_t env profile_p profile_ch 0 false false g
  = (Ok (np.prod (np.clip_negative
                    (np.zipWith np.vdot profile_p profile_ch))), g).
Proof.
  intros Hp Hch Hlen. unfold prob_t.
  destruct (Rlt_dec 0 0) as [Hlt|_]; [lra |].
  unfold np.shape0. rewrite Hlen, Nat.eqb_refl. cbn [negb].
  rewrite exp_lt_zero.
  destruct g_exact as [HV [HVi [Heig Hinv]]]. rewrite Heig.
  rewrite (T_dot_T a) by (auto using v_inv_nonempty).
  change (np.dot profile_p (v g))
    with (map (fun r => vecmat r (v g)) profile_p).
  unfold np.mul, np.mul_rows, np.sum1.
  rewrite map_map, zipWith_map, map_zipWith.
  do 4 f_equal. apply zipWith_ext_in. intros r c Hr Hc.
  apply (site_probability_zero_time a); auto.
Qed.

(** C2, as amended: for a profile in which every site is one observed
    symbol (a one-hot row), the probability of the profile against itself
    at zero time, with the default flags, is exactly [1]; the model is any
    model whose eigenvector matrix times its inverse is the identity. *)
Theorem prob_t_same_one_hot_profile (p : matrix) :
  one_hot_profile a p ->
  prob_t env p p 0 false false g = (Ok 1, g).
Proof.
  intros [Hrows Hhot].
  rewrite prob_t_zero_time by auto.
  rewrite zipWith_diag.
  rewrite (map_ext_in _ (fun _ => 1)).
  - rewrite map_const. unfold np.clip_negative.
    rewrite (map_ext_in _ (fun _ => 1)).
    + now rewrite map_const, prod_ones.
    + intros x Hx. apply repeat_spec in Hx. subst x.
      destruct (Rlt_dec 1 0); [lra | reflexivity].
  - intros r Hr. apply vdot_one_hot.
    rewrite Forall_forall in Hhot. now apply Hhot.
Qed.

(** C9: for every profile, propagation by zero time with the default
    flags returns the profile itself; the arithmetic is exact and the
    model is any model whose eigenvector matrix times its inverse is the
    identity. *)
Theorem propagate_profile_zero_time (profile : matrix) :
  (forall r, In r profile -> length r = a) ->
  propagate_profile profile 0 false false g = (Ok profile, g).
Proof.
  intros Hrows. unfold propagate_profile. cbn [negb].
  rewrite exp_lt_zero.
  destruct g_exact as [HV [HVi [Heig Hinv]]]. rewrite Heig.
  rewrite (T_dot_T a (v_inv g) profile) by (auto using v_inv_nonempty).
  unfold np.rows_mul. rewrite map_map.
  rewrite (map_ext_in _ (matvec (v_inv g))).
  - rewrite (T_dot_T a (v g)); auto using v_nonempty.
    + rewrite map_map.
      rewrite (map_ext_in _ (fun r => r)).
      * now rewrite map_id.
      * intros r Hr. apply (matvec_inverse a); auto.
    + intros r Hr. apply in_map_iff in Hr. destruct Hr as [r0 [<- _]].
      rewrite length_matvec. now destruct HVi.
  - intros r Hr. apply zipWith_ones_l.
    rewrite length_matvec. now destruct HVi.
Qed.

End ZeroTime.

(* ================================================================== *)
(** ** Only one-hot profiles reach probability one                      *)
(* ================================================================== *)

Lemma sum_nonneg (r : vec) : Forall (fun x => 0 <= x) r -> 0 <= np.sum r.
Proof.
  induction 1 as [|x r Hx _ IH]; simpl; lra.
Qed.

Lemma sum_zero_zeros (r : vec) :
  Forall (fun x => 0 <= x) r -> np.sum r = 0 -> r = np.zeros (length r).
Proof.
  induction 1 as [|x r Hx Hr IH]; simpl; intros Hs.
  - reflexivity.
  - pose proof (sum_nonneg r Hr) as Hn.
    assert (x = 0) by lra. assert (np.sum r = 0) by lra.
    subst x. unfold np.zeros in *. simpl. f_equal. now apply IH.
Qed.

Lemma vdot_self_bounds (r : vec) :
  Forall (fun x => 0 <= x) r ->
  0 <= np.vdot r r <= np.sum r * np.sum r.
Proof.
  induction 1 as [|x r Hx Hr IH]; unfold np.vdot in *; simpl.
  - lra.
  - pose proof (sum_nonneg r Hr) as Hn. nra.
Qed.

(** A non-negative row whose squares sum to the square of its sum has all
    its mass on one entry. *)
Lemma vdot_self_concentrated (r : vec) :
  Forall (fun x => 0 <= x) r ->
  np.vdot r r = np.sum r * np.sum r -> 0 < np.sum r ->
  exists k, (k < length r)%nat /\
            r = np.setitem k (np.sum r) (np.zeros (length r)).
Proof.
  induction 1 as [|x r Hx Hr IH]; intros Hsq Hpos.
  - simpl in Hpos. lra.
  - pose proof (sum_nonneg r Hr) as Hn.
    pose proof (vdot_self_bounds r Hr) as Hb.
    unfold np.vdot in *. simpl in *.
    assert (Hxs : x * np.sum r = 0) by nra.
    destruct (Rmult_integral _ _ Hxs) as [Hx0|Hs0].
    + subst x.
      destruct IH as [k [Hk Hr']]; [nra | lra |].
      exists (S k). split; [lia |].
      unfold np.zeros in *. simpl. f_equal.
      replace (0 + np.sum r) with (np.sum r) by lra. exact Hr'.
    + exists 0%nat. split; [lia |].
      unfold np.zeros. simpl. f_equal; [lra |].
      now apply sum_zero_zeros.
Qed.

Lemma one_hot_of_distribution (r : vec) :
  distribution r -> np.vdot r r = 1 -> one_hot r.
Proof.
  intros [Hnn Hs] Hsq.
  destruct (vdot_self_concentrated r Hnn) as [k [Hk Hr]].
  - rewrite Hs. lra.
  - lra.
  - exists k. split; [assumption |]. now rewrite Hs in Hr.
Qed.

Lemma prod_unit_interval (x : vec) :
  Forall (fun f => 0 <= f <= 1) x -> 0 <= np.prod x <= 1.
Proof.
  induction 1 as [|f x Hf _ IH]; simpl.
  - lra.
  - nra.
Qed.

Lemma prod_one_factors (x : vec) :
  Forall (fun f => 0 <= f <= 1) x -> np.prod x = 1 ->
  Forall (fun f => f = 1) x.
Proof.
  induction 1 as [|f x Hf Hx IH]; simpl; intros Hp.
  - constructor.
  - pose proof (prod_unit_interval x Hx) as Hb.
    assert (f = 1) by nra. assert (np.prod x = 1) by nra.
    constructor; auto.
Qed.

(** Among the profiles that are distributions, only the one-hot profiles
    reach probability one against themselves at zero time. *)
Lemma prob_t_same_profile_one_only (env : Env) (a : nat) (g : GTR)
      (p : matrix) :
  (0 < a)%nat -> eig_exact a g -> valid_profile a p ->
  prob_t env p p 0 false false g = (Ok 1, g) -> one_hot_profile a p.
Proof.
  intros Ha Hg [Hrows Hdist].
  - rewrite (prob_t_zero_time env a g) by auto.
    rewrite zipWith_diag. intros H. inversion H as [Hprod]. clear H.
    split; [assumption |].
    assert (Hclip : np.clip_negative (map (fun r => np.vdot r r) p)
                    = map (fun r => np.vdot r r) p).
    { unfold np.clip_negative. rewrite <- (map_id (map _ p)) at 2.
      apply map_ext_in. intros f Hf. apply in_map_iff in Hf.
      destruct Hf as [r [<- Hr]].
      rewrite Forall_forall in Hdist. destruct (Hdist r Hr) as [Hnn _].
      pose proof (vdot_self_bounds r Hnn).
      destruct (Rlt_dec (np.vdot r r) 0); [lra | reflexivity]. }
    rewrite Hclip in Hprod.
    assert (Hunit : Forall (fun f => 0 <= f <= 1)
                           (map (fun r => np.vdot r r) p)).
    { apply Forall_forall. intros f Hf. apply in_map_iff in Hf.
      destruct Hf as [r [<- Hr]].
      rewrite Forall_forall in Hdist. destruct (Hdist r Hr) as [Hnn Hs].
      pose proof (vdot_self_bounds r Hnn) as Hb. rewrite Hs in Hb. lra. }
    pose proof (prod_one_factors _ Hunit Hprod) as Hones.
    rewrite Forall_forall in *. intros r Hr.
    apply one_hot_of_distribution; [now apply Hdist |].
    apply Hones. apply in_map_iff. now exists r.
Qed.

(* ================================================================== *)
(** ** The sample model                                                 *)
(* ================================================================== *)

(** What [_eig] stores in the model: the arrays that the linear-algebra
    facility returned. *)
Lemma eig_stores (env : Env) (g g' : GTR) :
  _eig env g = (Ok tt, g') ->
  exists w V Vi,
    linalg_eig env (np.dot (Pi g) (W g)) = Ok (w, V) /\
    linalg_inv env V = Ok Vi /\
    g' = set_eigenmat (set_v_inv (set_v g V) Vi) w.
Proof.
  unfold _eig. destruct (linalg_eig env (np.dot (Pi g) (W g))) as [[w V]|e].
  - cbn [v set_v]. destruct (linalg_inv env V) as [Vi|e] eqn:Einv.
    + intros H. inversion H. exists w, V, Vi. auto.
    + discriminate.
  - discriminate.
Qed.

(** The sample model is the one the factory builds in the sample
    environment. *)
Lemma sample_JC_constructed :
  standard Sample.env "Jukes-Cantor" Sample.no_kwargs = Ok Sample.JC.
Proof.
  unfold Sample.no_kwargs.
  rewrite (standard_uniform Sample.env Sample.nuc eq_refl (Nat.lt_0_succ 3)
             Sample.eigvals Sample.eigvecs Sample.eigvecs_inv eq_refl eq_refl).
  unfold Sample.JC. cbn. repeat (f_equal; try lra).
Qed.

(** Its eigenvalues and eigenvectors are those of its generator, and the
    second matrix is the inverse of the first. *)
Lemma sample_JC_eigen :
  np.dot (np.dot (Pi Sample.JC) (W Sample.JC)) (v Sample.JC)
  = np.mul_rows (v Sample.JC) (eigenmat Sample.JC).
Proof.
  cbn. repeat (f_equal; try lra).
Qed.

Lemma sample_JC_exact : eig_exact 4 Sample.JC.
Proof.
  unfold eig_exact, is_matrix. cbn.
  repeat split; try reflexivity.
  - intros r [<-|[<-|[<-|[<-|[]]]]]; reflexivity.
  - intros r [<-|[<-|[<-|[<-|[]]]]]; reflexivity.
  - repeat (f_equal; try lra).
Qed.

Lemma prob_t_same_one_hot_profile_witness :
  (0 < 4)%nat /\ eig_exact 4 Sample.JC /\
  one_hot_profile 4 Sample.two_sites /\
  prob_t Sample.env Sample.two_sites Sample.two_sites 0 false false Sample.JC
  = (Ok 1, Sample.JC).
Proof.
  assert (Hhot : one_hot_profile 4 Sample.two_sites).
  { split.
    - intros r [<-|[<-|[]]]; reflexivity.
    - repeat constructor.
      + exists 0%nat. split; [simpl; lia | reflexivity].
      + exists 2%nat. split; [simpl; lia | reflexivity]. }
  split; [lia | split; [exact sample_JC_exact | split; [exact Hhot |]]].
  apply (prob_t_same_one_hot_profile Sample.env 4 Sample.JC
           (Nat.lt_0_succ 3) sample_JC_exact Sample.two_sites Hhot).
Defined.

Lemma propagate_profile_zero_time_witness :
  (0 < 4)%nat /\ eig_exact 4 Sample.JC /\
  (forall r, In r Sample.site_AC -> length r = 4%nat) /\
  propagate_profile Sample.site_AC 0 false false Sample.JC
  = (Ok Sample.site_AC, Sample.JC).
Proof.
  assert (Hrows : forall r, In r Sample.site_AC -> length r = 4%nat).
  { intros r [<-|[]]. reflexivity. }
  split; [lia | split; [exact sample_JC_exact | split; [exact Hrows |]]].
  apply (propagate_profile_zero_time 4 Sample.JC
           (Nat.lt_0_succ 3) sample_JC_exact Sample.site_AC Hrows).
Defined.

(** C2 fails for a profile that is a distribution without being one-hot:
    in the Jukes-Cantor model built by the factory, the site that is [A]
    or [C] with probability one half each has probability [1/2], not [1],
    against itself at zero time. *)
Lemma prob_t_same_profile_counterexample :
  standard Sample.env "Jukes-Cantor" Sample.no_kwargs = Ok Sample.JC /\
  eig_exact 4 Sample.JC /\
  valid_profile 4 Sample.site_AC /\
  prob_t Sample.env Sample.site_AC Sample.site_AC 0 false false Sample.JC
  = (Ok (1 / 2), Sample.JC) /\
  prob_t Sample.env Sample.site_AC Sample.site_AC 0 false false Sample.JC
  <> (Ok 1, Sample.JC).
Proof.
  assert (Hrun : prob_t Sample.env Sample.site_AC Sample.site_AC 0 false false
                   Sample.JC = (Ok (1 / 2), Sample.JC)).
  { rewrite (prob_t_zero_time Sample.env 4 Sample.JC
               (Nat.lt_0_succ 3) sample_JC_exact).
    - cbn. destruct (Rlt_dec _ 0) as [Hneg|_].
      + lra.
      + do 2 f_equal. lra.
    - intros r [<-|[]]. reflexivity.
    - intros r [<-|[]]. reflexivity.
    - reflexivity. }
  split; [exact sample_JC_constructed | split; [exact sample_JC_exact |]].
  split; [| split; [exact Hrun |]].
  - split.
    + intros r [<-|[]]. reflexivity.
    + constructor; [| constructor]. split.
      * repeat (apply Forall_cons; [lra |]). apply Forall_nil.
      * cbn. lra.
  - rewrite Hrun. intros H. inversion H. lra.
Qed.


(* ================================================================== *)
(** * Further properties of the model                                   *)
(* ================================================================== *)

(* ================================================================== *)
(** ** More arrays by their entries                                     *)
(* ================================================================== *)

Lemma row_T (n m : nat) (M : matrix) (j : nat) :
  is_matrix n m M -> (0 < n)%nat -> (j < m)%nat ->
  nth j (np.T M) [] = np.col j M.
Proof.
  intros HM Hn Hj. unfold np.T.
  rewrite (is_matrix_shape1 n m M HM Hn).
  now rewrite (nth_map_seq (fun j => np.col j M)).
Qed.

Lemma is_matrix_T (n m : nat) (M : matrix) :
  is_matrix n m M -> (0 < n)%nat -> is_matrix m n (np.T M).
Proof.
  intros HM Hn. unfold np.T. rewrite (is_matrix_shape1 n m M HM Hn). split.
  - now rewrite length_map, length_seq.
  - intros r Hr. apply in_map_iff in Hr. destruct Hr as [j [<- _]].
    rewrite length_col. now destruct HM.
Qed.

Lemma entry_T (n m : nat) (M : matrix) (i j : nat) :
  is_matrix n m M -> (i < n)%nat -> (j < m)%nat ->
  entry (np.T M) j i = entry M i j.
Proof.
  intros HM Hi Hj. unfold entry at 1.
  rewrite (row_T n m) by (assumption || lia).
  apply nth_col. destruct HM. lia.
Qed.

Lemma entry_map_map (n m : nat) (f : R -> R) (M : matrix) (i j : nat) :
  is_matrix n m M -> (i < n)%nat -> (j < m)%nat ->
  entry (map (map f) M) i j = f (entry M i j).
Proof.
  intros HM Hi Hj. unfold entry.
  rewrite (nth_indep _ [] (map f []))
    by (rewrite length_map; destruct HM as [<- _]; exact Hi).
  rewrite (map_nth (map f)).
  rewrite (nth_indep _ 0 (f 0))
    by (rewrite length_map, (is_matrix_row n m); assumption).
  now rewrite (map_nth f).
Qed.

Lemma is_matrix_map_map (n m : nat) (f : R -> R) (M : matrix) :
  is_matrix n m M -> is_matrix n m (map (map f) M).
Proof.
  intros [Hn Hm]. split.
  - now rewrite length_map.
  - intros r Hr. apply in_map_iff in Hr. destruct Hr as [r0 [<- Hr0]].
    rewrite length_map. now apply Hm.
Qed.

Lemma is_matrix_mul_rows (n m : nat) (M : matrix) (x : vec) :
  is_matrix n m M -> length x = m -> is_matrix n m (np.mul_rows M x).
Proof.
  intros [Hn Hm] Hx. unfold np.mul_rows. split.
  - now rewrite length_map.
  - intros r Hr. apply in_map_iff in Hr. destruct Hr as [r0 [<- Hr0]].
    rewrite length_zipWith, (Hm r0 Hr0), Hx. apply Nat.min_id.
Qed.

Lemma entry_mul_rows (n m : nat) (M : matrix) (x : vec) (i j : nat) :
  is_matrix n m M -> length x = m -> (i < n)%nat -> (j < m)%nat ->
  entry (np.mul_rows M x) i j = entry M i j * nth j x 0.
Proof.
  intros HM Hx Hi Hj. unfold entry, np.mul_rows.
  rewrite (nth_indep _ [] ((fun r => np.zipWith Rmult r x) []))
    by (rewrite length_map; destruct HM as [<- _]; exact Hi).
  rewrite (map_nth (fun r => np.zipWith Rmult r x)).
  apply nth_zipWith; [rewrite (is_matrix_row n m) | rewrite Hx]; assumption.
Qed.

Lemma length_diagonal (M : matrix) : length (np.diagonal M) = length M.
Proof.
  unfold np.diagonal. now rewrite length_map, length_enumerate.
Qed.

Lemma nth_diagonal (M : matrix) (i : nat) :
  (i < length M)%nat -> nth i (np.diagonal M) 0 = entry M i i.
Proof.
  intros Hi. unfold np.diagonal.
  now rewrite (nth_enumerate_map _ M i []).
Qed.

(** Two arrays of one shape with the same entries are the same array. *)
Lemma matrix_ext (n m : nat) (A B : matrix) :
  is_matrix n m A -> is_matrix n m B ->
  (forall i j, (i < n)%nat -> (j < m)%nat -> entry A i j = entry B i j) ->
  A = B.
Proof.
  intros HA HB H. apply (nth_ext _ _ [] []).
  - destruct HA as [HA1 _], HB as [HB1 _].
    transitivity n; [exact HA1 | symmetry; exact HB1].
  - intros i Hi.
    assert (Hin : (i < n)%nat) by (destruct HA as [<- _]; exact Hi).
    apply (nth_ext _ _ 0 0).
    + now rewrite (is_matrix_row n m A), (is_matrix_row n m B).
    + intros j Hj. rewrite (is_matrix_row n m A) in Hj by assumption.
      now apply H.
Qed.

(* ================================================================== *)
(** ** The repair of the rate matrix                                    *)
(* ================================================================== *)

Lemma sum_map_div (x : vec) (s : R) :
  np.sum (map (fun a => a / s) x) = np.sum x / s.
Proof.
  induction x as [|a x IH]; simpl.
  - lra.
  - rewrite IH. lra.
Qed.

Lemma sum_all_div_scalar (M : matrix) (s : R) :
  np.sum_all (np.div_scalar M s) = np.sum_all M / s.
Proof.
  unfold np.sum_all, np.div_scalar. induction M as [|r M IH]; simpl.
  - lra.
  - rewrite IH, sum_map_div. lra.
Qed.

Section Repair.

Variable g : GTR.

Let a : nat := length (alphabet g).
Let s : R := np.sum_all (Pi g).

Hypothesis a_pos : (0 < a)%nat.
Hypothesis Pi_square : is_matrix a a (Pi g).
Hypothesis W_square : is_matrix a a (W g).
Hypothesis Pi_diagonal :
  forall i j, (i < a)%nat -> (j < a)%nat -> i <> j -> entry (Pi g) i j = 0.
Hypothesis Pi_sum : s <> 0.
Hypothesis Pi_positive : forall j, (j < a)%nat -> entry (Pi g) j j <> 0.

(** The three arrays of the repair. *)
Let Pi' : matrix := np.div_scalar (Pi g) s.
Let W0 : matrix := np.fill_diagonal_scalar (W g) 0.
Let Wdiag : vec :=
  np.vdiv (np.vneg (np.sum0 (np.T (np.mul_rows (np.T W0) (np.diagonal Pi')))))
          (np.diagonal Pi').
Let W' : matrix := np.fill_diagonal W0 Wdiag.

Lemma fix_Q_fields : Pi (fix_Q g) = Pi' /\ W (fix_Q g) = W'.
Proof.
  split; reflexivity.
Qed.

Lemma is_matrix_Pi' : is_matrix a a Pi'.
Proof.
  apply is_matrix_map_map, Pi_square.
Qed.

Lemma is_matrix_W0 : is_matrix a a W0.
Proof.
  apply is_matrix_fill_diagonal_scalar, W_square.
Qed.

Lemma is_matrix_W' : is_matrix a a W'.
Proof.
  apply is_matrix_fill_diagonal, is_matrix_W0.
Qed.

Lemma entry_Pi' (i j : nat) :
  (i < a)%nat -> (j < a)%nat -> entry Pi' i j = entry (Pi g) i j / s.
Proof.
  intros Hi Hj. unfold Pi', np.div_scalar.
  now rewrite (entry_map_map a a).
Qed.

Lemma length_diag' : length (np.diagonal Pi') = a.
Proof.
  rewrite length_diagonal. now destruct is_matrix_Pi'.
Qed.

Lemma nth_diag' (j : nat) :
  (j < a)%nat -> nth j (np.diagonal Pi') 0 = entry (Pi g) j j / s.
Proof.
  intros Hj. rewrite nth_diagonal.
  - now apply entry_Pi'.
  - destruct is_matrix_Pi' as [-> _]. exact Hj.
Qed.

Lemma diag'_nonzero (j : nat) :
  (j < a)%nat -> entry (Pi g) j j / s <> 0.
Proof.
  intros Hj. unfold Rdiv. apply Rmult_integral_contrapositive_currified.
  - now apply Pi_positive.
  - now apply Rinv_neq_0_compat.
Qed.

Lemma entry_W0 (i j : nat) :
  (i < a)%nat -> (j < a)%nat ->
  entry W0 i j = if (j =? i)%nat then 0 else entry (W g) i j.
Proof.
  intros Hi Hj. unfold W0. now apply (entry_fill_diagonal_scalar a).
Qed.

(** The weighted column sums of the off-diagonal rates. *)
Lemma weighted_sums :
  np.sum0 (np.T (np.mul_rows (np.T W0) (np.diagonal Pi')))
  = map (fun j => bigsum a (fun i => entry W0 i j * (entry (Pi g) i i / s)))
        (seq 0 a).
Proof.
  assert (H1 : is_matrix a a (np.T W0))
    by (apply is_matrix_T; [apply is_matrix_W0 | assumption]).
  assert (H2 : is_matrix a a (np.mul_rows (np.T W0) (np.diagonal Pi')))
    by (apply is_matrix_mul_rows; [assumption | apply length_diag']).
  assert (H3 : is_matrix a a
                 (np.T (np.mul_rows (np.T W0) (np.diagonal Pi'))))
    by (apply is_matrix_T; assumption).
  rewrite (sum0_bigsum a a) by assumption.
  apply map_ext_in. intros j Hj. apply in_seq in Hj.
  apply bigsum_ext. intros i Hi.
  rewrite (entry_T a a) by (assumption || lia).
  rewrite (entry_mul_rows a a) by (assumption || lia || apply length_diag').
  rewrite (entry_T a a) by (try apply is_matrix_W0; lia).
  now rewrite nth_diag'.
Qed.

Lemma nth_Wdiag (j : nat) :
  (j < a)%nat ->
  nth j Wdiag 0
  = - bigsum a (fun i => entry W0 i j * (entry (Pi g) i i / s))
    / (entry (Pi g) j j / s).
Proof.
  intros Hj. unfold Wdiag, np.vdiv, np.vneg. rewrite weighted_sums, map_map.
  rewrite nth_zipWith.
  - now rewrite nth_map_seq, nth_diag'.
  - now rewrite length_map, length_seq.
  - now rewrite length_diag'.
Qed.

Lemma entry_W' (i j : nat) :
  (i < a)%nat -> (j < a)%nat ->
  entry W' i j = if (j =? i)%nat then nth i Wdiag 0 else entry (W g) i j.
Proof.
  intros Hi Hj. unfold W'.
  rewrite (entry_fill_diagonal a) by (assumption || apply is_matrix_W0).
  destruct (Nat.eqb_spec j i) as [E|E]; [reflexivity |].
  rewrite entry_W0 by assumption.
  destruct (Nat.eqb_spec j i); [contradiction | reflexivity].
Qed.

(** With a diagonal equilibrium, row [i] of the generator is row [i] of
    [W'] times the frequency of symbol [i]. *)
Lemma entry_Q' (i j : nat) :
  (i < a)%nat -> (j < a)%nat ->
  entry (np.dot Pi' W') i j = entry (Pi g) i i / s * entry W' i j.
Proof.
  intros Hi Hj.
  rewrite (entry_dot a a a)
    by (assumption || apply is_matrix_Pi' || apply is_matrix_W').
  rewrite (bigsum_ext a _
             (fun l => (if (l =? i)%nat then entry (Pi g) i i / s else 0)
                       * entry W' l j)).
  - now rewrite (bigsum_pick a i _ (fun l => entry W' l j)).
  - intros l Hl. rewrite entry_Pi' by assumption.
    destruct (Nat.eqb_spec l i) as [->|E]; [reflexivity |].
    rewrite Pi_diagonal by auto. f_equal. unfold Rdiv. ring.
Qed.

(** After the repair every column of the generator sums to zero. *)
Lemma fix_Q_columns :
  np.sum0 (np.dot (Pi (fix_Q g)) (W (fix_Q g))) = repeat 0 a.
Proof.
  destruct fix_Q_fields as [-> ->].
  assert (HQ : is_matrix a a (np.dot Pi' W')).
  { apply (is_matrix_dot a a a); auto using is_matrix_W'.
    now destruct is_matrix_Pi'. }
  rewrite (sum0_bigsum a a) by assumption.
  apply (nth_ext _ _ 0 0).
  - now rewrite length_map, length_seq, repeat_length.
  - intros j Hj. rewrite length_map, length_seq in Hj.
    rewrite nth_map_seq, nth_repeat_lt by assumption.
    rewrite (bigsum_ext a _
               (fun i => entry W0 i j * (entry (Pi g) i i / s)
                         + (if (i =? j)%nat
                            then entry (Pi g) j j / s * nth j Wdiag 0
                            else 0) * 1)).
    + rewrite bigsum_plus, (bigsum_pick a j _ (fun _ => 1)) by assumption.
      rewrite nth_Wdiag by assumption.
      field. split; [exact Pi_sum | now apply Pi_positive].
    + intros i Hi. rewrite entry_Q', entry_W', entry_W0 by assumption.
      rewrite (Nat.eqb_sym i j).
      destruct (Nat.eqb_spec j i) as [->|E]; lra.
Qed.

(** In exact arithmetic the validation of such a model does not raise:
    either it finds every column sum below the tolerance and leaves the
    model as it is, or it repairs the model.  (With floats the repaired
    sums are zero up to rounding only.) *)
Lemma check_fix_Q_diagonal_equilibrium :
  _check_fix_Q g = (Ok tt, g) \/
  (_check_fix_Q g = (Ok tt, fix_Q g) /\
   np.sum_all (Pi (fix_Q g)) = 1 /\
   np.sum0 (np.dot (Pi (fix_Q g)) (W (fix_Q g))) = repeat 0 a /\
   columns_sum_to_zero (fix_Q g)).
Proof.
  rewrite check_fix_Q_unfold. destruct (rate_is_wrong g) eqn:E1.
  - right.
    assert (E2 : rate_is_wrong (fix_Q g) = false).
    { unfold rate_is_wrong. rewrite fix_Q_columns.
      rewrite count_lt_all, repeat_length.
      - apply Nat.ltb_irrefl.
      - apply Forall_forall. intros x Hx. apply repeat_spec in Hx. lra. }
    rewrite E2. repeat split.
    + destruct fix_Q_fields as [-> _]. unfold Pi'.
      rewrite sum_all_div_scalar. fold s. now field.
    + apply fix_Q_columns.
    + unfold columns_sum_to_zero. rewrite fix_Q_columns.
      apply Forall_forall. intros x Hx. apply repeat_spec in Hx. subst x.
      rewrite Rabs_R0. lra.
  - now left.
Qed.



End Repair.



(* ================================================================== *)
(** ** What the validation leaves behind                                *)
(* ================================================================== *)

(** X3: validating twice is validating once: a model that came out of a
    successful check passes the next check unchanged. *)
Theorem check_fix_Q_idempotent (g g' : GTR) :
  _check_fix_Q g = (Ok tt, g') -> _check_fix_Q g' = (Ok tt, g').
Proof.
  intros Hrun. destruct (check_fix_Q_returns g g' Hrun) as [Hpass _].
  rewrite check_fix_Q_unfold, Hpass. reflexivity.
Qed.


(** X5: what a successful validation guarantees of a model with square
    matrices: every column of [Pi.dot(W)] sums below the tolerance (the
    one-sided test, not the distance from zero), and the alphabet, the
    rate and the eigendecomposition are those of the model given. *)
Theorem check_fix_Q_success (g g' : GTR) :
  length (Pi g) = length (alphabet g) ->
  is_matrix (length (alphabet g)) (length (alphabet g)) (W g) ->
  _check_fix_Q g = (Ok tt, g') ->
  columns_sum_below g' /\
  alphabet g' = alphabet g /\ mu g' = mu g /\
  v g' = v g /\ v_inv g' = v_inv g /\ eigenmat g' = eigenmat g.
Proof.
  intros HPi HW Hrun. split.
  - now apply (check_fix_Q_below g).
  - destruct (check_fix_Q_returns g g' Hrun) as [_ [-> | ->]];
      repeat split; reflexivity.
Qed.

Lemma check_fix_Q_idempotent_witness :
  _check_fix_Q Sample.steep = (Ok tt, Sample.steep).
Proof.
  apply (check_fix_Q_idempotent Sample.steep Sample.steep).
  apply check_fix_Q_pass.
  - unfold columns_sum_below. cbn. repeat (apply Forall_cons; [lra |]).
    apply Forall_nil.
  - reflexivity.
Defined.

Lemma sample_skew_fails :
  _check_fix_Q Sample2.skew = (Raise ArithmeticError, fix_Q Sample2.skew).
Proof.
  rewrite check_fix_Q_unfold.
  assert (E1 : rate_is_wrong Sample2.skew = true).
  { unfold rate_is_wrong. cbn.
    repeat match goal with
           | |- context [Rlt_dec ?x ?y] => destruct (Rlt_dec x y); try lra
           end.
    reflexivity. }
  assert (E2 : rate_is_wrong (fix_Q Sample2.skew) = true).
  { unfold rate_is_wrong. cbn.
    repeat match goal with
           | |- context [Rlt_dec ?x ?y] => destruct (Rlt_dec x y); try lra
           end.
    reflexivity. }
  now rewrite E1, E2.
Qed.


Lemma check_fix_Q_success_witness :
  columns_sum_below Sample.steep /\
  alphabet Sample.steep = Sample.nuc.
Proof.
  destruct (check_fix_Q_success Sample.steep Sample.steep) as [H1 [H2 _]].
  - reflexivity.
  - split; [reflexivity |].
    intros r [<-|[<-|[<-|[<-|[]]]]]; reflexivity.
  - apply check_fix_Q_pass.
    + unfold columns_sum_below. cbn. repeat (apply Forall_cons; [lra |]).
      apply Forall_nil.
    + reflexivity.
  - split; [exact H1 | exact H2].
Defined.

(* ================================================================== *)
(** ** The presets and the generator invariant                         *)
(* ================================================================== *)

Lemma call_eig_returns (env : Env) (g : GTR) :
  linalg_returns env ->
  exists g', call (_eig env) g = Ok g' /\
             Pi g' = Pi g /\ W g' = W g /\ mu g' = mu g /\
             alphabet g' = alphabet g /\ alphabet_type g' = alphabet_type g.
Proof.
  intros Hla. destruct (Hla (np.dot (Pi g) (W g))) as [w [V [Vi [He Hi]]]].
  unfold call, _eig. rewrite He. cbn [v set_v]. rewrite Hi.
  eexists. split; [reflexivity |]. repeat split; reflexivity.
Qed.



Lemma nth_zipWith_rows {A B C} (f : A -> B -> C) (x : list A) (y : list B)
      (i : nat) (da : A) (db : B) (dc : C) :
  (i < length x)%nat -> (i < length y)%nat ->
  nth i (np.zipWith f x y) dc = f (nth i x da) (nth i y db).
Proof.
  revert y i. induction x as [|a x IH]; intros [|b y] [|i] Hx Hy;
    simpl in *; try lia; auto.
  apply IH; lia.
Qed.

Lemma is_matrix_add (n m : nat) (A B : matrix) :
  is_matrix n m A -> is_matrix n m B -> is_matrix n m (np.add A B).
Proof.
  intros HA HB. unfold np.add.
  assert (HlA : length A = n) by now destruct HA.
  assert (HlB : length B = n) by now destruct HB.
  unfold matrix, vec in *. split.
  - rewrite length_zipWith. lia.
  - intros r Hr. apply (In_nth _ _ []) in Hr. destruct Hr as [i [Hi <-]].
    rewrite length_zipWith in Hi.
    rewrite (nth_zipWith_rows _ A B i [] []) by lia.
    rewrite length_zipWith.
    pose proof (is_matrix_row n m A i HA) as H1.
    pose proof (is_matrix_row n m B i HB) as H2.
    unfold matrix, vec in *. rewrite H1, H2 by lia.
    apply Nat.min_id.
Qed.

Lemma entry_add (n m : nat) (A B : matrix) (i j : nat) :
  is_matrix n m A -> is_matrix n m B -> (i < n)%nat -> (j < m)%nat ->
  entry (np.add A B) i j = entry A i j + entry B i j.
Proof.
  intros HA HB Hi Hj. unfold entry, np.add.
  rewrite (nth_zipWith_rows _ A B i [] []).
  - apply nth_zipWith.
    + now rewrite (is_matrix_row n m A).
    + now rewrite (is_matrix_row n m B).
  - destruct HA as [<- _]. exact Hi.
  - destruct HB as [<- _]. exact Hi.
Qed.

Lemma is_matrix_diagflat (d : vec) :
  is_matrix (length d) (length d) (np.diagflat d).
Proof.
  apply is_matrix_fill_diagonal, is_matrix_repeat.
Qed.

Lemma entry_diagflat (d : vec) (i j : nat) :
  (i < length d)%nat -> (j < length d)%nat ->
  entry (np.diagflat d) i j = if (j =? i)%nat then nth i d 0 else 0.
Proof.
  intros Hi Hj. unfold np.diagflat.
  rewrite (entry_fill_diagonal (length d))
    by (assumption || apply is_matrix_repeat).
  destruct (j =? i)%nat; [reflexivity | now apply entry_repeat].
Qed.

Lemma sum_all_bigsum (n m : nat) (M : matrix) :
  is_matrix n m M ->
  np.sum_all M = bigsum n (fun i => bigsum m (fun j => entry M i j)).
Proof.
  intros HM. unfold np.sum_all. rewrite sum_bigsum, length_map.
  destruct HM as [Hn Hm]. rewrite Hn.
  apply bigsum_ext. intros i Hi.
  rewrite (nth_indep _ 0 (np.sum [])) by (rewrite length_map; lia).
  rewrite (map_nth np.sum), sum_bigsum.
  rewrite (Hm (nth i M [])) by (apply nth_In; lia).
  reflexivity.
Qed.

Lemma sum_all_diagflat (d : vec) : np.sum_all (np.diagflat d) = np.sum d.
Proof.
  rewrite (sum_all_bigsum (length d) (length d))
    by apply is_matrix_diagflat.
  rewrite sum_bigsum. apply bigsum_ext. intros i Hi.
  rewrite (bigsum_ext _ _
             (fun j => (if (j =? i)%nat then nth i d 0 else 0) * 1)).
  - rewrite (bigsum_pick _ i _ (fun _ => 1)) by assumption. lra.
  - intros j Hj. rewrite entry_diagflat by assumption. lra.
Qed.

Lemma sum_positive (x : vec) :
  Forall (fun a => 0 < a) x -> x <> [] -> 0 < np.sum x.
Proof.
  induction 1 as [|a x Ha Hx IH]; intros Hne.
  - contradiction.
  - simpl. destruct x as [|b x].
    + simpl. lra.
    + assert (0 < np.sum (b :: x)) by (apply IH; discriminate). lra.
Qed.

Lemma bigsum_nonneg (n : nat) (f : nat -> R) :
  (forall i, (i < n)%nat -> 0 <= f i) -> 0 <= bigsum n f.
Proof.
  induction n as [|n IH]; intros H.
  - unfold bigsum. simpl. lra.
  - rewrite bigsum_S. assert (0 <= bigsum n f) by (apply IH; auto).
    assert (0 <= f n) by (apply H; lia). lra.
Qed.

(** With a diagonal matrix on the left, the product scales the rows. *)
Lemma entry_dot_diagonal (a : nat) (P M : matrix) (i j : nat) :
  (0 < a)%nat -> is_matrix a a P -> is_matrix a a M ->
  (forall k l, (k < a)%nat -> (l < a)%nat -> k <> l -> entry P k l = 0) ->
  (i < a)%nat -> (j < a)%nat ->
  entry (np.dot P M) i j = entry P i i * entry M i j.
Proof.
  intros Ha HP HM Hdiag Hi Hj.
  rewrite (entry_dot a a a) by assumption.
  rewrite (bigsum_ext a _
             (fun l => (if (l =? i)%nat then entry P i i else 0)
                       * entry M l j)).
  - now rewrite (bigsum_pick a i _ (fun l => entry M l j)).
  - intros l Hl. destruct (Nat.eqb_spec l i) as [->|E]; [reflexivity |].
    rewrite Hdiag by auto. reflexivity.
Qed.

Section RandomPreset.

Variable env : Env.
Variable nuc : list ascii.
Hypothesis nuc_known : alphabets env "nuc" = Some nuc.

Let a : nat := length nuc.
Hypothesis nuc_inhabited : (0 < a)%nat.
Hypothesis linalg : linalg_returns env.
Hypothesis draws : draws_fit env a.

Variable rate : option R.

(** The arrays of the preset, as the factory computes them. *)
Let x : vec := map (Rmult 1) (random_randint1 env a).
Let p : vec := np.vdiv_scalar x (np.sum x).
Let R1 : matrix := map (map (Rmult 1)) (random_randint2 env a).
Let Wr : matrix := np.add R1 (np.T R1).

(** The model handed to the validation. *)
Let drawn : GTR :=
  {| alphabet_type := "nuc";
     alphabet := nuc;
     W := Wr;
     Pi := np.diagflat p;
     mu := match rate with Some m => m | None => 1 end;
     v := np.zeros2 a a;
     v_inv := np.zeros2 a a;
     eigenmat := np.zeros a;
     dm := None |}.

Lemma standard_random_steps :
  standard env "random" {| kw_alphabet := None; kw_mu := rate |}
  = (g <- call _check_fix_Q drawn ;; g <- call (_eig env) g ;; Ok g).
Proof.
  unfold standard, __init__. cbn [kw_alphabet kw_mu result_bind String.eqb
    Ascii.eqb Bool.eqb]. rewrite nuc_known. reflexivity.
Qed.

Lemma length_x : length x = a.
Proof.
  unfold x. rewrite length_map. now destruct draws.
Qed.

Lemma x_positive : Forall (fun c => 0 < c) x.
Proof.
  destruct draws as [_ [Hpos _]]. unfold x.
  apply Forall_forall. intros c Hc. apply in_map_iff in Hc.
  destruct Hc as [d [<- Hd]]. rewrite Forall_forall in Hpos.
  specialize (Hpos d Hd). lra.
Qed.

Lemma sum_x_positive : 0 < np.sum x.
Proof.
  apply sum_positive; [apply x_positive |].
  intros E. pose proof length_x as H. rewrite E in H. simpl in H. lia.
Qed.

Lemma length_p : length p = a.
Proof.
  unfold p, np.vdiv_scalar. rewrite length_map. apply length_x.
Qed.

Lemma nth_p_positive (j : nat) : (j < a)%nat -> 0 < nth j p 0.
Proof.
  intros Hj. unfold p, np.vdiv_scalar.
  rewrite (nth_indep _ 0 ((fun c => c / np.sum x) 0))
    by (rewrite length_map, length_x; exact Hj).
  rewrite (map_nth (fun c => c / np.sum x)).
  apply Rdiv_lt_0_compat; [| apply sum_x_positive].
  pose proof x_positive as H. rewrite Forall_forall in H.
  apply H, nth_In. now rewrite length_x.
Qed.

Lemma sum_p : np.sum p = 1.
Proof.
  unfold p, np.vdiv_scalar. rewrite sum_map_div.
  pose proof sum_x_positive. field. lra.
Qed.

Lemma is_matrix_Pi_drawn : is_matrix a a (np.diagflat p).
Proof.
  rewrite <- length_p at 1 2. apply is_matrix_diagflat.
Qed.

Lemma is_matrix_R1 : is_matrix a a R1.
Proof.
  apply is_matrix_map_map. now destruct draws as [_ [_ [H _]]].
Qed.

Lemma is_matrix_Wr : is_matrix a a Wr.
Proof.
  apply is_matrix_add; [apply is_matrix_R1 |].
  apply is_matrix_T; [apply is_matrix_R1 | assumption].
Qed.

Lemma entry_R1_nonneg (i j : nat) :
  (i < a)%nat -> (j < a)%nat -> 0 <= entry R1 i j.
Proof.
  intros Hi Hj. unfold R1.
  destruct draws as [_ [_ [HM Hnn]]].
  rewrite (entry_map_map a a) by assumption.
  specialize (Hnn i j Hi Hj). lra.
Qed.

Lemma entry_Wr_nonneg (i j : nat) :
  (i < a)%nat -> (j < a)%nat -> 0 <= entry Wr i j.
Proof.
  intros Hi Hj. unfold Wr.
  rewrite (entry_add a a);
    [| apply is_matrix_R1
     | apply is_matrix_T; [apply is_matrix_R1 | assumption]
     | assumption | assumption].
  rewrite (entry_T a a) by (assumption || apply is_matrix_R1).
  pose proof (entry_R1_nonneg i j Hi Hj).
  pose proof (entry_R1_nonneg j i Hj Hi). lra.
Qed.

Lemma Pi_drawn_diagonal (i j : nat) :
  (i < a)%nat -> (j < a)%nat -> i <> j -> entry (np.diagflat p) i j = 0.
Proof.
  intros Hi Hj Hne. rewrite entry_diagflat by (rewrite length_p; assumption).
  destruct (Nat.eqb_spec j i); [congruence | reflexivity].
Qed.

Lemma Pi_drawn_positive (j : nat) :
  (j < a)%nat -> 0 < entry (np.diagflat p) j j.
Proof.
  intros Hj. rewrite entry_diagflat by (rewrite length_p; assumption).
  rewrite Nat.eqb_refl. now apply nth_p_positive.
Qed.

(** Before any repair the column sums of the drawn model are not
    negative. *)
Lemma drawn_columns_nonneg :
  Forall (fun c => 0 <= c) (np.sum0 (np.dot (Pi drawn) (W drawn))).
Proof.
  cbn [Pi W drawn].
  assert (HQ : is_matrix a a (np.dot (np.diagflat p) Wr)).
  { apply (is_matrix_dot a a a); auto using is_matrix_Wr.
    now destruct is_matrix_Pi_drawn. }
  rewrite (sum0_bigsum a a) by assumption.
  apply Forall_forall. intros c Hc. apply in_map_iff in Hc.
  destruct Hc as [j [<- Hj]]. apply in_seq in Hj.
  apply bigsum_nonneg. intros i Hi.
  rewrite (entry_dot_diagonal a)
    by (try apply is_matrix_Pi_drawn; try apply is_matrix_Wr;
        try apply Pi_drawn_diagonal; assumption || lia).
  pose proof (Pi_drawn_positive i Hi).
  assert (0 <= entry Wr i j) by (apply entry_Wr_nonneg; lia).
  nra.
Qed.

Lemma drawn_validated :
  exists g, call _check_fix_Q drawn = Ok g /\
            alphabet g = nuc /\
            mu g = match rate with Some m => m | None => 1 end /\
            np.sum_all (Pi g) = 1 /\ columns_sum_to_zero g.
Proof.
  assert (Hsum : np.sum_all (Pi drawn) = 1)
    by (cbn [Pi drawn]; rewrite sum_all_diagflat; apply sum_p).
  destruct (check_fix_Q_diagonal_equilibrium drawn) as [Hsame | Hfixed].
  - exact nuc_inhabited.
  - exact is_matrix_Pi_drawn.
  - exact is_matrix_Wr.
  - exact Pi_drawn_diagonal.
  - rewrite Hsum. lra.
  - intros j Hj. pose proof (Pi_drawn_positive j Hj). cbn [Pi drawn]. lra.
  - exists drawn. unfold call. rewrite Hsame.
    split; [reflexivity | split; [reflexivity | split; [reflexivity |]]].
    split; [exact Hsum |].
    assert (Hbelow : columns_sum_below drawn).
    { apply (check_fix_Q_below drawn drawn).
      - now destruct is_matrix_Pi_drawn.
      - exact is_matrix_Wr.
      - exact Hsame. }
    unfold columns_sum_to_zero, columns_sum_below in *.
    pose proof drawn_columns_nonneg as Hnn.
    rewrite Forall_forall in *. intros c Hc.
    specialize (Hbelow c Hc). specialize (Hnn c Hc).
    rewrite Rabs_right; lra.
  - destruct Hfixed as [Hrun [Hs [_ Hzero]]].
    exists (fix_Q drawn). unfold call. rewrite Hrun.
    split; [reflexivity | split; [reflexivity | split; [reflexivity |]]].
    split; assumption.
Qed.


End RandomPreset.

Lemma sample_draws_fit : draws_fit Sample.env 4.
Proof.
  unfold draws_fit. cbn [random_randint1 random_randint2 Sample.env].
  split; [reflexivity | split; [| split]].
  - repeat (apply Forall_cons; [lra |]). apply Forall_nil.
  - apply is_matrix_repeat.
  - intros i j Hi Hj. rewrite entry_repeat by assumption. lra.
Qed.

Lemma sample_linalg_returns : linalg_returns Sample.env.
Proof.
  intros Q. exists Sample.eigvals, Sample.eigvecs, Sample.eigvecs_inv.
  split; reflexivity.
Qed.


(* ================================================================== *)
(** ** Probability and propagation, site by site                       *)
(* ================================================================== *)

Lemma length_exp_lt (g : GTR) (t : R) :
  length (_exp_lt g t) = length (eigenmat g).
Proof.
  unfold _exp_lt, np.exp. now rewrite !length_map.
Qed.

Lemma zipWith_mul_assoc (u e y : vec) :
  np.zipWith Rmult (np.zipWith Rmult u e) y
  = np.zipWith Rmult u (np.zipWith Rmult e y).
Proof.
  revert e y. induction u as [|a u IH]; intros [|b e] [|c y]; simpl; auto.
  rewrite IH. f_equal. ring.
Qed.

Lemma zipWith_map_r {A B C D} (h : A -> C -> D) (f : B -> C)
      (x : list A) (y : list B) :
  np.zipWith h x (map f y) = np.zipWith (fun a b => h a (f b)) x y.
Proof.
  revert y. induction x as [|a x IH]; intros [|b y]; simpl; auto.
  now rewrite IH.
Qed.

Lemma prod_clip_nonneg (y : vec) : 0 <= np.prod (np.clip_negative y).
Proof.
  induction y as [|c y IH]; simpl.
  - lra.
  - destruct (Rlt_dec c 0); nra.
Qed.

Section Sites.

Variable env : Env.
Variable a : nat.
Variable g : GTR.
Hypothesis a_pos : (0 < a)%nat.
Hypothesis g_shaped : eig_shaped a g.

Lemma shaped_v_nonempty : v g <> [].
Proof.
  destruct g_shaped as [[Hlen _] _]. intros E. rewrite E in Hlen.
  simpl in Hlen. lia.
Qed.

Lemma shaped_v_inv_nonempty : v_inv g <> [].
Proof.
  destruct g_shaped as [_ [[Hlen _] _]]. intros E. rewrite E in Hlen.
  simpl in Hlen. lia.
Qed.

Lemma length_propagated_row (t : R) (c : vec) :
  length (propagated_row g t c) = a.
Proof.
  unfold propagated_row. rewrite length_matvec.
  now destruct g_shaped as [[H _] _].
Qed.

(** Propagation acts on every row of the profile by itself. *)
Lemma propagate_profile_rows (profile : matrix) (t : R) :
  (forall r, In r profile -> length r = a) ->
  propagate_profile profile t false false g
  = (Ok (map (propagated_row g t) profile), g).
Proof.
  intros Hrows. unfold propagate_profile. cbn [negb].
  destruct g_shaped as [HV [HVi Heig]].
  rewrite (T_dot_T a (v_inv g) profile)
    by (auto using shaped_v_inv_nonempty).
  unfold np.rows_mul. rewrite map_map.
  rewrite (T_dot_T a (v g)); auto using shaped_v_nonempty.
  - now rewrite map_map.
  - intros r Hr. apply in_map_iff in Hr. destruct Hr as [c [<- _]].
    rewrite length_zipWith, length_exp_lt, Heig, length_matvec.
    destruct HVi as [-> _]. apply Nat.min_id.
Qed.

(** The probability of one site: the parent row against the child row
    carried forward. *)
Lemma site_probability (t : R) (r c : vec) :
  length r = a -> length c = a ->
  np.sum (np.zipWith Rmult (np.zipWith Rmult (vecmat r (v g)) (_exp_lt g t))
                     (matvec (v_inv g) c))
  = np.vdot r (propagated_row g t c).
Proof.
  intros Hr Hc. destruct g_shaped as [HV [HVi Heig]].
  rewrite zipWith_mul_assoc.
  change (np.vdot (vecmat r (v g))
                  (np.zipWith Rmult (_exp_lt g t) (matvec (v_inv g) c))
          = np.vdot r (propagated_row g t c)).
  unfold propagated_row. apply (vdot_vecmat a a); auto.
  rewrite length_zipWith, length_exp_lt, Heig, length_matvec.
  destruct HVi as [-> _]. apply Nat.min_id.
Qed.

(** X8: for every time [t >= 0] and profiles of the same number of sites
    over the alphabet, the probability is what propagation predicts: the
    product over the sites of the parent row times the child row
    propagated by [t], negative site values being clamped to zero; the
    log form is the sum of the logarithms of the same site values, each
    raised by [TINY_NUMBER]. *)
Theorem prob_t_through_propagate
        (profile_p profile_ch : matrix) (t : R) (return_log : bool) :
  0 <= t ->
  (forall r, In r profile_p -> length r = a) ->
  (forall r, In r profile_ch -> length r = a) ->
  length profile_p = length profile_ch ->
  exists propagated sites,
    propagate_profile profile_ch t false false g = (Ok propagated, g) /\
    sites = np.clip_negative (np.zipWith np.vdot profile_p propagated) /\
    prob_t env profile_p profile_ch t false return_log g
    = (Ok (if return_log
           then np.sum (np.vlog (map (fun x => x + TINY_NUMBER env) sites))
           else np.prod sites), g).
Proof.
  intros Ht Hp Hch Hlen.
  exists (map (propagated_row g t) profile_ch).
  eexists. split; [now apply propagate_profile_rows | split; [reflexivity |]].
  unfold prob_t. destruct (Rlt_dec t 0) as [Hlt|_]; [lra |].
  unfold np.shape0. rewrite Hlen, Nat.eqb_refl. cbn [negb].
  rewrite (T_dot_T a) by (auto using shaped_v_inv_nonempty).
  change (np.dot profile_p (v g))
    with (map (fun r => vecmat r (v g)) profile_p).
  unfold np.mul, np.mul_rows, np.sum1.
  rewrite map_map, zipWith_map, map_zipWith, zipWith_map_r.
  rewrite (zipWith_ext_in _
             (fun r c => np.vdot r (propagated_row g t c))).
  - destruct return_log; reflexivity.
  - intros r c Hr Hc. apply site_probability; auto.
Qed.

(** X9: in plain form the probability is never negative, whatever the
    profiles, the time and the flags. *)
Theorem prob_t_plain_nonneg
        (profile_p profile_ch : matrix) (t : R) (rotated : bool) (x : R) :
  fst (prob_t env profile_p profile_ch t rotated false g) = Ok x -> 0 <= x.
Proof.
  unfold prob_t. destruct (Rlt_dec t 0) as [_|_].
  - simpl. intros H. inversion H. lra.
  - destruct (negb (np.shape0 profile_p =? np.shape0 profile_ch)%nat).
    + simpl. discriminate.
    + destruct (negb rotated); simpl; intros H; inversion H;
        apply prod_clip_nonneg.
Qed.

End Sites.

Lemma prob_t_through_propagate_witness :
  exists propagated sites,
    propagate_profile Sample.site_AC 1 false false Sample.JC
    = (Ok propagated, Sample.JC) /\
    sites = np.clip_negative (np.zipWith np.vdot Sample.site_A propagated) /\
    prob_t Sample.env Sample.site_A Sample.site_AC 1 false false Sample.JC
    = (Ok (np.prod sites), Sample.JC).
Proof.
  destruct sample_JC_exact as [HV [HVi [Heig _]]].
  apply (prob_t_through_propagate Sample.env 4 Sample.JC (Nat.lt_0_succ 3)
           (conj HV (conj HVi Heig)) Sample.site_A Sample.site_AC 1 false).
  - lra.
  - intros r [<-|[]]. reflexivity.
  - intros r [<-|[]]. reflexivity.
  - reflexivity.
Defined.

Lemma prob_t_plain_nonneg_witness :
  fst (prob_t Sample.env Sample.site_AC Sample.site_AC 0 false false
         Sample.JC) = Ok (1 / 2) /\ 0 <= 1 / 2.
Proof.
  assert (Hrun : fst (prob_t Sample.env Sample.site_AC Sample.site_AC 0
                        false false Sample.JC) = Ok (1 / 2)).
  { rewrite (prob_t_zero_time Sample.env 4 Sample.JC
               (Nat.lt_0_succ 3) sample_JC_exact).
    - cbn. destruct (Rlt_dec _ 0) as [Hneg|_].
      + lra.
      + f_equal. lra.
    - intros r [<-|[]]. reflexivity.
    - intros r [<-|[]]. reflexivity.
    - reflexivity. }
  split; [exact Hrun |].
  exact (prob_t_plain_nonneg Sample.env Sample.JC Sample.site_AC
           Sample.site_AC 0 false (1 / 2) Hrun).
Defined.

(* ================================================================== *)
(** ** Zero time, no sites, rotated profiles                            *)
(* ================================================================== *)

Lemma eig_exact_shaped (a : nat) (g : GTR) : eig_exact a g -> eig_shaped a g.
Proof.
  intros [HV [HVi [Heig _]]].
  split; [exact HV | split; [exact HVi | exact Heig]].
Qed.

Lemma propagated_row_zero (a : nat) (g : GTR) (c : vec) :
  (0 < a)%nat -> eig_exact a g -> length c = a ->
  propagated_row g 0 c = c.
Proof.
  intros Ha [HV [HVi [Heig Hinv]]] Hc. unfold propagated_row.
  rewrite exp_lt_zero, Heig, zipWith_ones_l.
  - now apply (matvec_inverse a).
  - rewrite length_matvec. now destruct HVi.
Qed.

(** X10: at zero time, in a model whose eigenvector matrix times its
    inverse is the identity, the probability is the product over the sites
    of the inner product of the parent row and the child row (clamped at
    zero), and the log form is the sum of the logarithms of the same site
    values raised by [TINY_NUMBER]; the model is left as it was. *)
Theorem prob_t_zero_time_inner_products
        (env : Env) (a : nat) (g : GTR)
        (profile_p profile_ch : matrix) (return_log : bool) :
  (0 < a)%nat -> eig_exact a g ->
  (forall r, In r profile_p -> length r = a) ->
  (forall r, In r profile_ch -> length r = a) ->
  length profile_p = length profile_ch ->
  prob_t env profile_p profile_ch 0 false return_log g
  = (Ok (if return_log
         then np.sum (np.vlog
                        (map (fun x => x + TINY_NUMBER env)
                             (np.clip_negative
                                (np.zipWith np.vdot profile_p profile_ch))))
         else np.prod (np.clip_negative
                         (np.zipWith np.vdot profile_p profile_ch))), g).
Proof.
  intros Ha Hg Hp Hch Hlen.
  pose proof (eig_exact_shaped a g Hg) as Hs.
  unfold prob_t. destruct (Rlt_dec 0 0) as [Hlt|_]; [lra |].
  unfold np.shape0. rewrite Hlen, Nat.eqb_refl. cbn [negb].
  rewrite (T_dot_T a) by (try apply (shaped_v_inv_nonempty a g); auto).
  change (np.dot profile_p (v g))
    with (map (fun r => vecmat r (v g)) profile_p).
  unfold np.mul, np.mul_rows, np.sum1.
  rewrite map_map, zipWith_map, map_zipWith.
  rewrite (zipWith_ext_in _ np.vdot).
  - destruct return_log; reflexivity.
  - intros r c Hr Hc.
    rewrite (site_probability a g Ha Hs) by auto.
    now rewrite (propagated_row_zero a g c Ha Hg) by auto.
Qed.

Lemma prob_t_zero_time_inner_products_witness :
  prob_t Sample.env Sample.site_A Sample.site_AC 0 false false Sample.JC
  = (Ok (np.prod (np.clip_negative
                    (np.zipWith np.vdot Sample.site_A Sample.site_AC))),
     Sample.JC).
Proof.
  apply (prob_t_zero_time_inner_products Sample.env 4 Sample.JC
           Sample.site_A Sample.site_AC false (Nat.lt_0_succ 3)
           sample_JC_exact).
  - intros r [<-|[]]. reflexivity.
  - intros r [<-|[]]. reflexivity.
  - reflexivity.
Defined.

(** X11: among the profiles whose rows are probability distributions,
    the profiles that have probability one against themselves at zero time
    are exactly the one-hot profiles. *)
Theorem prob_t_certainty_iff_one_hot
        (env : Env) (a : nat) (g : GTR) (p : matrix) :
  (0 < a)%nat -> eig_exact a g -> valid_profile a p ->
  prob_t env p p 0 false false g = (Ok 1, g) <-> one_hot_profile a p.
Proof.
  intros Ha Hg Hvalid. split.
  - now apply prob_t_same_profile_one_only.
  - intros [Hrows Hhot].
    rewrite (prob_t_zero_time env a g Ha Hg) by auto.
    rewrite zipWith_diag, (map_ext_in _ (fun _ => 1)).
    + rewrite map_const. unfold np.clip_negative.
      rewrite (map_ext_in _ (fun _ => 1)).
      * now rewrite map_const, prod_ones.
      * intros y Hy. apply repeat_spec in Hy. subst y.
        destruct (Rlt_dec 1 0); [lra | reflexivity].
    + intros r Hr. apply vdot_one_hot.
      rewrite Forall_forall in Hhot. now apply Hhot.
Qed.

Lemma sample_two_sites_valid : valid_profile 4 Sample.two_sites.
Proof.
  split.
  - intros r [<-|[<-|[]]]; reflexivity.
  - repeat (apply Forall_cons || apply Forall_nil); split;
      try (cbn; lra);
      repeat (apply Forall_cons; [lra |]); apply Forall_nil.
Qed.

Lemma prob_t_certainty_iff_one_hot_witness :
  prob_t Sample.env Sample.two_sites Sample.two_sites 0 false false Sample.JC
  = (Ok 1, Sample.JC) <-> one_hot_profile 4 Sample.two_sites.
Proof.
  apply (prob_t_certainty_iff_one_hot Sample.env 4 Sample.JC
           Sample.two_sites (Nat.lt_0_succ 3) sample_JC_exact
           sample_two_sites_valid).
Defined.

(** X12: profiles without sites.  For every model and every time
    [t >= 0], the probability of the empty profile against itself is one
    (zero in log form), and the empty profile propagates to itself. *)
Theorem no_sites (env : Env) (g : GTR) (t : R) (rotated : bool) :
  0 <= t ->
  prob_t env [] [] t rotated false g = (Ok 1, g) /\
  prob_t env [] [] t rotated true g = (Ok 0, g) /\
  propagate_profile [] t rotated false g = (Ok [], g).
Proof.
  intros Ht. unfold prob_t, propagate_profile.
  destruct (Rlt_dec t 0) as [Hlt|_]; [lra |].
  assert (HT : forall M : matrix, np.T (np.dot M (np.T [])) = []).
  { intros [|r M]; reflexivity. }
  destruct rotated; cbn [negb np.shape0 length Nat.eqb];
    rewrite ?HT; repeat split; reflexivity.
Qed.

Lemma no_sites_witness :
  0 <= 1 /\
  prob_t Sample.env [] [] 1 false false Sample.JC = (Ok 1, Sample.JC).
Proof.
  split; [lra |].
  apply (no_sites Sample.env Sample.JC 1 false). lra.
Defined.

(* ================================================================== *)
(** ** Propagation composes                                             *)
(* ================================================================== *)

Lemma exp_lt_compose (g : GTR) (t1 t2 : R) (z : vec) :
  np.zipWith Rmult (_exp_lt g t2) (np.zipWith Rmult (_exp_lt g t1) z)
  = np.zipWith Rmult (_exp_lt g (t1 + t2)) z.
Proof.
  unfold _exp_lt, np.exp. rewrite !map_map.
  revert z. induction (eigenmat g) as [|lam l IH]; intros [|c z]; simpl; auto.
  rewrite IH. f_equal.
  replace (mu g * (t1 + t2) * lam) with (mu g * t2 * lam + mu g * t1 * lam)
    by ring.
  rewrite exp_plus. ring.
Qed.

(** X13: propagation by [t1] and then by [t2] is propagation by
    [t1 + t2], for every profile over the alphabet, in a model whose
    inverse eigenvector matrix times the eigenvector matrix is the
    identity. *)
Theorem propagate_profile_compose
        (a : nat) (g : GTR) (profile : matrix) (t1 t2 : R) :
  (0 < a)%nat -> eig_shaped a g ->
  np.dot (v_inv g) (v g) = np.eye a ->
  (forall r, In r profile -> length r = a) ->
  exists mid,
    propagate_profile profile t1 false false g = (Ok mid, g) /\
    propagate_profile mid t2 false false g
    = propagate_profile profile (t1 + t2) false false g.
Proof.
  intros Ha Hs Hinv Hrows. destruct Hs as [HV [HVi Heig]].
  assert (Hs : eig_shaped a g) by (split; [| split]; assumption).
  exists (map (propagated_row g t1) profile). split.
  - now apply (propagate_profile_rows a).
  - rewrite (propagate_profile_rows a g Ha Hs).
    + rewrite (propagate_profile_rows a g Ha Hs) by assumption.
      rewrite map_map. do 2 f_equal.
      apply map_ext_in. intros c Hc. unfold propagated_row.
      rewrite (matvec_inverse a (v_inv g) (v g)); auto.
      * now rewrite exp_lt_compose.
      * rewrite length_zipWith, length_exp_lt, Heig, length_matvec.
        destruct HVi as [-> _]. apply Nat.min_id.
    + intros r Hr. apply in_map_iff in Hr. destruct Hr as [c [<- _]].
      now apply (length_propagated_row a).
Qed.

Lemma sample_JC_inverse_left :
  np.dot (v_inv Sample.JC) (v Sample.JC) = np.eye 4.
Proof.
  cbn. repeat (f_equal; try lra).
Qed.

Lemma propagate_profile_compose_witness :
  exists mid,
    propagate_profile Sample.site_AC 1 false false Sample.JC
    = (Ok mid, Sample.JC) /\
    propagate_profile mid 2 false false Sample.JC
    = propagate_profile Sample.site_AC (1 + 2) false false Sample.JC.
Proof.
  apply (propagate_profile_compose 4 Sample.JC Sample.site_AC 1 2
           (Nat.lt_0_succ 3) (eig_exact_shaped 4 Sample.JC sample_JC_exact)
           sample_JC_inverse_left).
  intros r [<-|[]]. reflexivity.
Defined.

(** X14: the flag [rotated].  Handing [prob_t] the two profiles already
    rotated into the eigenspace, with [rotated=True], gives what the
    unrotated call gives, in both forms and for every time; the same holds
    of [propagate_profile]. *)
Theorem rotated_profiles
        (env : Env) (a : nat) (g : GTR)
        (profile_p profile_ch : matrix) (t : R) (return_log : bool) :
  (0 < a)%nat -> eig_shaped a g ->
  (forall r, In r profile_ch -> length r = a) ->
  prob_t env (np.dot profile_p (v g))
         (np.T (np.dot (v_inv g) (np.T profile_ch))) t true return_log g
  = prob_t env profile_p profile_ch t false return_log g /\
  propagate_profile (np.T (np.dot (v_inv g) (np.T profile_ch)))
                    t true return_log g
  = propagate_profile profile_ch t false return_log g.
Proof.
  intros Ha Hs Hch. split; [| reflexivity].
  unfold prob_t. destruct (Rlt_dec t 0) as [_|_]; [reflexivity |].
  assert (H1 : np.shape0 (np.dot profile_p (v g)) = np.shape0 profile_p)
    by (unfold np.shape0, np.dot; apply length_map).
  assert (H2 : np.shape0 (np.T (np.dot (v_inv g) (np.T profile_ch)))
               = np.shape0 profile_ch).
  { rewrite (T_dot_T a); auto.
    - unfold np.shape0. apply length_map.
    - apply (shaped_v_inv_nonempty a g); assumption. }
  rewrite H1, H2. reflexivity.
Qed.

Lemma rotated_profiles_witness :
  prob_t Sample.env (np.dot Sample.site_A (v Sample.JC))
         (np.T (np.dot (v_inv Sample.JC) (np.T Sample.site_AC)))
         1 true false Sample.JC
  = prob_t Sample.env Sample.site_A Sample.site_AC 1 false false Sample.JC.
Proof.
  apply (rotated_profiles Sample.env 4 Sample.JC Sample.site_A
           Sample.site_AC 1 false (Nat.lt_0_succ 3)
           (eig_exact_shaped 4 Sample.JC sample_JC_exact)).
  intros r [<-|[]]. reflexivity.
Defined.

(* ================================================================== *)
(** ** What the optimization returns                                    *)
(* ================================================================== *)

(** X15: [optimal_t] returns a time exactly when the optimizer reports
    success with an optimum that is at most nine tenths of
    [MAX_BRANCH_LENGTH]; the time returned is that optimum, the model is
    left as it was, and the objective minimized is the negative
    log-probability of the unrotated profiles, whatever the two flags of
    the call say. *)
Theorem optimal_t_returns_iff
        (env : Env) (profile_p profile_ch : matrix)
        (rotated return_log : bool) (self self' : GTR) (x : R) :
  optimal_t env profile_p profile_ch rotated return_log self = (Ok x, self')
  <->
  self' = self /\
  exists opt,
    minimize_scalar env
      (fun t => p <- fst (prob_t env profile_p profile_ch t false true self) ;;
                Ok (-1 * p))
      0 (MAX_BRANCH_LENGTH env) = Ok opt /\
    opt_x opt = x /\ opt_success opt = true /\
    x <= 0.9 * MAX_BRANCH_LENGTH env.
Proof.
  unfold optimal_t.
  destruct (minimize_scalar env _ 0 (MAX_BRANCH_LENGTH env)) as [opt|e].
  - destruct (Rgt_dec (opt_x opt) (0.9 * MAX_BRANCH_LENGTH env)) as [Hgt|Hle];
      cbn [orb].
    + split.
      * simpl. discriminate.
      * intros [_ [o [Ho [Hx [_ Hb]]]]]. inversion Ho. subst. lra.
    + destruct (opt_success opt) eqn:Es; simpl.
      * split.
        -- intros H. inversion H. subst. split; [reflexivity |].
           exists opt. repeat split; auto. lra.
        -- intros [-> [o [Ho [Hx _]]]]. inversion Ho. subst. reflexivity.
      * split.
        -- discriminate.
        -- intros [_ [o [Ho [_ [Hs _]]]]]. inversion Ho. subst. congruence.
  - split.
    + discriminate.
    + intros [_ [o [Ho _]]]. discriminate.
Qed.

Lemma optimal_t_returns_iff_witness :
  optimal_t Sample2.env_converged Sample.site_A Sample.site_AC true true
            Sample.JC = (Ok 0.5, Sample.JC).
Proof.
  apply (optimal_t_returns_iff Sample2.env_converged Sample.site_A
           Sample.site_AC true true Sample.JC Sample.JC 0.5).
  split; [reflexivity |].
  exists {| opt_x := 0.5; opt_success := true |}.
  repeat split; try reflexivity.
  cbn. lra.
Defined.

(* ================================================================== *)
(** ** What the eigendecomposition leaves behind                        *)
(* ================================================================== *)

(** X16: [_eig] succeeds exactly when both [eig] and [inv] return; then
    the model holds their outputs and every other field is as before.
    When it fails, either [eig] failed and the model is untouched, or
    [inv] failed and the model already holds the new eigenvectors beside
    the old inverse and the old eigenvalues. *)
Theorem eig_outcomes (env : Env) (g g' : GTR) (r : result unit) :
  _eig env g = (r, g') ->
  (exists w V Vi,
     linalg_eig env (np.dot (Pi g) (W g)) = Ok (w, V) /\
     linalg_inv env V = Ok Vi /\ r = Ok tt /\
     g' = set_eigenmat (set_v_inv (set_v g V) Vi) w) \/
  (exists e,
     linalg_eig env (np.dot (Pi g) (W g)) = Raise e /\
     r = Raise e /\ g' = g) \/
  (exists w V e,
     linalg_eig env (np.dot (Pi g) (W g)) = Ok (w, V) /\
     linalg_inv env V = Raise e /\ r = Raise e /\
     g' = set_v g V /\ v_inv g' = v_inv g /\ eigenmat g' = eigenmat g).
Proof.
  unfold _eig.
  destruct (linalg_eig env (np.dot (Pi g) (W g))) as [[w V]|e].
  - cbn [v set_v]. destruct (linalg_inv env V) as [Vi|e] eqn:Einv.
    + intros H. inversion H. left. exists w, V, Vi. auto.
    + intros H. inversion H. right. right. exists w, V, e.
      repeat split; auto.
  - intros H. inversion H. right. left. exists e. auto.
Qed.

Lemma eig_outcomes_witness :
  _eig Sample2.env_singular Sample.steep
  = (Raise LinAlgError, set_v Sample.steep Sample.eigvecs) /\
  v_inv (set_v Sample.steep Sample.eigvecs) = np.zeros2 4 4.
Proof.
  assert (Hrun : _eig Sample2.env_singular Sample.steep
                 = (Raise LinAlgError, set_v Sample.steep Sample.eigvecs))
    by reflexivity.
  split; [exact Hrun |].
  destruct (eig_outcomes Sample2.env_singular Sample.steep _ _ Hrun)
    as [[w [V [Vi [_ [_ [H _]]]]]]
       | [[e [H _]] | [w [V [e [_ [_ [_ [_ [H _]]]]]]]]]].
  - discriminate H.
  - discriminate H.
  - exact H.
Defined.

(* ================================================================== *)
(** ** The distance matrix                                              *)
(* ================================================================== *)

Lemma optimal_t_state (env : Env) (p1 p2 : matrix) (rotated return_log : bool)
      (self : GTR) :
  snd (optimal_t env p1 p2 rotated return_log self) = self.
Proof.
  unfold optimal_t.
  destruct (minimize_scalar env _ 0 (MAX_BRANCH_LENGTH env)) as [opt|e].
  - destruct (_ || _); reflexivity.
  - reflexivity.
Qed.

Lemma comprehension_state {A B} (f : A -> method B) (xs : list A)
      (self : GTR) :
  (forall x s, snd (f x s) = s) ->
  snd (comprehension f xs self) = self.
Proof.
  intros Hf. induction xs as [|x xs IH]; simpl.
  - reflexivity.
  - specialize (Hf x self). destruct (f x self) as [[b|e] s1].
    + simpl in Hf. subst s1.
      destruct (comprehension f xs self) as [[bs|e] s2]; simpl in *; auto.
    + exact Hf.
Qed.

Lemma comprehension_every {A B} (f : A -> method B) (xs : list A)
      (self self' : GTR) (ys : list B) :
  (forall x s, snd (f x s) = s) ->
  comprehension f xs self = (Ok ys, self') ->
  forall x, In x xs -> exists y, fst (f x self) = Ok y.
Proof.
  intros Hf. revert ys. induction xs as [|x0 xs IH]; intros ys Hrun x Hin.
  - destruct Hin.
  - simpl in Hrun. pose proof (Hf x0 self) as Hs.
    destruct (f x0 self) as [[b|e] s1] eqn:E0; [| discriminate].
    simpl in Hs. subst s1.
    destruct (comprehension f xs self) as [[bs|e] s2] eqn:E1;
      [| discriminate].
    destruct Hin as [<- | Hin].
    + exists b. now rewrite E0.
    + apply (IH bs); [| assumption].
      inversion Hrun. reflexivity.
Qed.

(** X17: whatever the profiles and whatever the outcome, [create_dm]
    leaves one change in the model: the distance matrix [dm] is the zero
    matrix of the shape of [Pi].  The pairwise times it computes are never
    stored. *)
Theorem create_dm_stores_zeros
        (env : Env) (profiles : list matrix) (self : GTR) :
  snd (create_dm env profiles self)
  = set_dm self (Some (np.zeros2 (np.shape0 (Pi self))
                                 (np.shape1 (Pi self)))).
Proof.
  unfold create_dm.
  match goal with
  | |- snd (match comprehension ?f ?xs ?s with _ => _ end) = _ =>
      pose proof (comprehension_state f xs s) as Hs;
      destruct (comprehension f xs s) as [[T|e] s']
  end; simpl in *; apply Hs; intros p2 s0;
    apply comprehension_state; intros p1 s1; apply optimal_t_state.
Qed.

Lemma prob_t_ignores_dm (env : Env) (p c : matrix) (t : R)
      (rotated return_log : bool) (self : GTR) (d : option matrix) :
  fst (prob_t env p c t rotated return_log (set_dm self d))
  = fst (prob_t env p c t rotated return_log self).
Proof.
  unfold prob_t. destruct (Rlt_dec t 0).
  - destruct return_log; reflexivity.
  - destruct (negb (np.shape0 p =? np.shape0 c)%nat); [reflexivity |].
    destruct (negb rotated), return_log; reflexivity.
Qed.

Lemma optimal_t_ignores_dm (env : Env) (p1 p2 : matrix)
      (rotated return_log : bool) (self : GTR) (d : option matrix) :
  fst (optimal_t env p1 p2 rotated return_log (set_dm self d))
  = fst (optimal_t env p1 p2 rotated return_log self).
Proof.
  unfold optimal_t.
  replace (fun t : R =>
             p <- fst (prob_t env p1 p2 t false true (set_dm self d)) ;;
             Ok (-1 * p))
    with (fun t : R =>
            p <- fst (prob_t env p1 p2 t false true self) ;; Ok (-1 * p)).
  - destruct (minimize_scalar env _ 0 (MAX_BRANCH_LENGTH env)) as [opt|e].
    + destruct (_ || _); reflexivity.
    + reflexivity.
  - apply functional_extensionality. intros t.
    now rewrite prob_t_ignores_dm.
Qed.

(** X18: [create_dm] succeeds only if the optimization of every ordered
    pair of the profiles returns a time; one pair on which [optimal_t]
    raises makes the whole call raise. *)
Theorem create_dm_every_pair
        (env : Env) (profiles : list matrix) (self self' : GTR) :
  create_dm env profiles self = (Ok tt, self') ->
  forall p1 p2, In p1 profiles -> In p2 profiles ->
    exists x, fst (optimal_t env p1 p2 false false self) = Ok x.
Proof.
  unfold create_dm. intros Hrun p1 p2 H1 H2.
  set (s0 := set_dm self _) in Hrun.
  assert (Hinner : forall p s,
             snd (comprehension (fun q => optimal_t env q p false false)
                                profiles s) = s).
  { intros p s. apply comprehension_state. intros q s1.
    apply optimal_t_state. }
  destruct (comprehension _ profiles s0) as [[T|e] s1] eqn:E;
    [| discriminate].
  destruct (comprehension_every _ profiles s0 s1 T Hinner E p2 H2)
    as [row Hrow].
  destruct (comprehension (fun q => optimal_t env q p2 false false)
                          profiles s0) as [[row'|e] s2] eqn:E2;
    [| discriminate Hrow].
  destruct (comprehension_every
              (fun q => optimal_t env q p2 false false) profiles s0 s2 row'
              (fun q s => optimal_t_state env q p2 false false s) E2 p1 H1)
    as [x Hx].
  exists x. rewrite <- Hx. unfold s0. symmetry. apply optimal_t_ignores_dm.
Qed.

Lemma create_dm_every_pair_witness :
  create_dm Sample2.env_converged [Sample.site_A; Sample.site_AC] Sample.JC
  = (Ok tt, set_dm Sample.JC (Some (np.zeros2 4 4))) /\
  exists x, fst (optimal_t Sample2.env_converged Sample.site_AC Sample.site_A
                   false false Sample.JC) = Ok x.
Proof.
  assert (Hrun : create_dm Sample2.env_converged
                   [Sample.site_A; Sample.site_AC] Sample.JC
                 = (Ok tt, set_dm Sample.JC (Some (np.zeros2 4 4)))).
  { unfold create_dm, comprehension, optimal_t. cbn.
    destruct (Rgt_dec 0.5 (0.9 * 1.5)) as [Hgt|_]; [lra | reflexivity]. }
  split; [exact Hrun |].
  apply (create_dm_every_pair Sample2.env_converged
           [Sample.site_A; Sample.site_AC] Sample.JC _ Hrun).
  - right. left. reflexivity.
  - left. reflexivity.
Defined.

(* ================================================================== *)
(** ** Decay factors                                                    *)
(* ================================================================== *)

(** X19: [_exp_lt] returns one factor for each eigenvalue, no factor is
    negative, and when the rate times the time is not negative and no
    eigenvalue is positive, no factor exceeds one. *)
Theorem exp_lt_bounds (g : GTR) (t : R) :
  length (_exp_lt g t) = length (eigenmat g) /\
  Forall (fun d => 0 <= d) (_exp_lt g t) /\
  (0 <= mu g * t -> Forall (fun lam => lam <= 0) (eigenmat g) ->
   Forall (fun d => d <= 1) (_exp_lt g t)).
Proof.
  split; [apply length_exp_lt |]. unfold _exp_lt, np.exp. rewrite map_map.
  split.
  - apply Forall_forall. intros d Hd. apply in_map_iff in Hd.
    destruct Hd as [lam [<- _]]. left. apply exp_pos.
  - intros Hmt Hlam. apply Forall_forall. intros d Hd.
    apply in_map_iff in Hd. destruct Hd as [lam [<- Hin]].
    rewrite Forall_forall in Hlam. specialize (Hlam lam Hin).
    assert (Hx : mu g * t * lam <= 0) by nra.
    destruct Hx as [Hneg | Hzero].
    + left. rewrite <- exp_0. now apply exp_increasing.
    + rewrite Hzero, exp_0. lra.
Qed.

Lemma exp_lt_bounds_witness :
  0 <= mu Sample.JC * 2 /\
  Forall (fun lam => lam <= 0) (eigenmat Sample.JC) /\
  Forall (fun d => d <= 1) (_exp_lt Sample.JC 2).
Proof.
  assert (H1 : 0 <= mu Sample.JC * 2) by (cbn; lra).
  assert (H2 : Forall (fun lam => lam <= 0) (eigenmat Sample.JC)).
  { cbn. repeat (apply Forall_cons; [lra |]). apply Forall_nil. }
  split; [exact H1 | split; [exact H2 |]].
  destruct (exp_lt_bounds Sample.JC 2) as [_ [_ H]]. exact (H H1 H2).
Defined.

(* ================================================================== *)
(** ** Construction without the alphabet option                        *)
(* ================================================================== *)

(** X20: which error the factory raises when it is called without the
    alphabet option.  A preset name other than the two it knows raises
    [NotImplementedError], whether or not any alphabet is registered; a
    known preset raises [AttributeError] when the default alphabet ['nuc']
    is not registered; and the constructor raises [AttributeError] on
    every alphabet name that is not registered. *)
Theorem construction_errors (env : Env) (model : string) (rate : option R) :
  (model <> "Jukes-Cantor" -> model <> "random" ->
   standard env model {| kw_alphabet := None; kw_mu := rate |}
   = Raise NotImplementedError) /\
  (alphabets env "nuc" = None ->
   model = "Jukes-Cantor" \/ model = "random" ->
   standard env model {| kw_alphabet := None; kw_mu := rate |}
   = Raise AttributeError) /\
  (forall alphabet_type,
     alphabets env alphabet_type = None ->
     __init__ env alphabet_type = Raise AttributeError).
Proof.
  split; [| split].
  - intros H1 H2. unfold standard. simpl.
    apply String.eqb_neq in H1, H2. now rewrite H1, H2.
  - intros Hnone [-> | ->]; unfold standard, __init__; simpl;
      now rewrite Hnone.
  - intros alphabet_type Hnone. unfold __init__. now rewrite Hnone.
Qed.

Lemma construction_errors_witness :
  standard Sample.env "K80" Sample.no_kwargs = Raise NotImplementedError /\
  __init__ Sample.env "aa" = Raise AttributeError.
Proof.
  destruct (construction_errors Sample.env "K80" None) as [H1 [_ H3]].
  split.
  - apply H1; discriminate.
  - apply H3. reflexivity.
Defined.

(** X21: the object the constructor makes for a registered alphabet of [a]
    symbols has [a] by [a] zero matrices, rate one and no distance matrix,
    and the validation accepts it as it is: an all-zero generator passes
    the check. *)
Theorem init_fresh_model
        (env : Env) (alphabet_type : string) (symbols : list ascii) :
  alphabets env alphabet_type = Some symbols ->
  exists g,
    __init__ env alphabet_type = Ok g /\
    alphabet g = symbols /\ mu g = 1 /\ dm g = None /\
    W g = np.zeros2 (length symbols) (length symbols) /\
    Pi g = np.zeros2 (length symbols) (length symbols) /\
    _check_fix_Q g = (Ok tt, g).
Proof.
  intros Hknown. unfold __init__. rewrite Hknown.
  eexists. split; [reflexivity |].
  cbn [alphabet mu dm W Pi]. repeat split.
  set (a := length symbols).
  assert (Hcols : np.sum0 (np.dot (np.zeros2 a a) (np.zeros2 a a))
                  = repeat 0 a).
  { destruct (Nat.eq_dec a 0) as [-> | Hpos]; [reflexivity |].
    assert (HZ : is_matrix a a (np.zeros2 a a)) by apply is_matrix_repeat.
    assert (HQ : is_matrix a a (np.dot (np.zeros2 a a) (np.zeros2 a a))).
    { apply (is_matrix_dot a a a); auto; [now destruct HZ | lia]. }
    rewrite (sum0_bigsum a a) by (assumption || lia).
    apply (nth_ext _ _ 0 0).
    - now rewrite length_map, length_seq, repeat_length.
    - intros j Hj. rewrite length_map, length_seq in Hj.
      rewrite nth_map_seq, nth_repeat_lt by assumption.
      rewrite (bigsum_ext a _ (fun _ => 0)); [apply bigsum_zero |].
      intros i Hi. rewrite (entry_dot a a a) by (assumption || lia).
      rewrite (bigsum_ext a _ (fun _ => 0)); [apply bigsum_zero |].
      intros l Hl. unfold np.zeros2. rewrite !entry_repeat by assumption.
      lra. }
  apply check_fix_Q_pass.
  - unfold columns_sum_below. cbn [Pi W]. rewrite Hcols.
    apply Forall_forall. intros c Hc. apply repeat_spec in Hc. lra.
  - cbn [Pi W alphabet]. rewrite Hcols. apply repeat_length.
Qed.

Lemma init_fresh_model_witness :
  exists g,
    __init__ Sample.env "nuc" = Ok g /\
    alphabet g = Sample.nuc /\ _check_fix_Q g = (Ok tt, g).
Proof.
  destruct (init_fresh_model Sample.env "nuc" Sample.nuc eq_refl)
    as [g [H1 [H2 [_ [_ [_ [_ H3]]]]]]].
  exists g. repeat split; assumption.
Defined.

(* ================================================================== *)
(** ** Propagation conserves the total of a row                         *)
(* ================================================================== *)

Lemma sum_matvec (a : nat) (M : matrix) (y : vec) :
  is_matrix a a M -> length y = a ->
  np.sum (matvec M y)
  = bigsum a (fun i => bigsum a (fun j => entry M j i) * nth i y 0).
Proof.
  intros HM Hy. rewrite sum_bigsum, length_matvec.
  assert (Hlen : length M = a) by now destruct HM.
  rewrite Hlen.
  rewrite (bigsum_ext a _
             (fun j => bigsum a (fun i => entry M j i * nth i y 0))).
  - rewrite bigsum_swap. apply bigsum_ext. intros i Hi.
    rewrite Rmult_comm, <- bigsum_scal. apply bigsum_ext. intros j _. ring.
  - intros j Hj. now apply (nth_matvec_bigsum a a).
Qed.

Section Conservation.

Variable a : nat.
Variable g : GTR.
Hypothesis a_pos : (0 < a)%nat.
Hypothesis g_exact : eig_exact a g.
Hypothesis Pi_square : is_matrix a a (Pi g).
Hypothesis W_square : is_matrix a a (W g).

(** The contract of [eig]: the columns of [v] are eigenvectors of the
    generator, with the eigenvalues [eigenmat]. *)
Hypothesis eigen_equation :
  np.dot (np.dot (Pi g) (W g)) (v g) = np.mul_rows (v g) (eigenmat g).

(** The generator invariant, exactly. *)
Hypothesis generator : np.sum0 (np.dot (Pi g) (W g)) = repeat 0 a.

(** The column sums of the eigenvector matrix. *)
Let u (i : nat) : R := bigsum a (fun j => entry (v g) j i).

Lemma is_matrix_Q : is_matrix a a (np.dot (Pi g) (W g)).
Proof.
  apply (is_matrix_dot a a a); auto. now destruct Pi_square.
Qed.

Lemma column_sum_Q (l : nat) :
  (l < a)%nat -> bigsum a (fun k => entry (np.dot (Pi g) (W g)) k l) = 0.
Proof.
  intros Hl. pose proof generator as Hgen.
  rewrite (sum0_bigsum a a) in Hgen by (assumption || apply is_matrix_Q).
  apply (f_equal (fun x => nth l x 0)) in Hgen.
  now rewrite nth_map_seq, nth_repeat_lt in Hgen.
Qed.

(** A column of [v] with a non-zero eigenvalue sums to zero. *)
Lemma u_eigenvalue (i : nat) :
  (i < a)%nat -> u i * nth i (eigenmat g) 0 = 0.
Proof.
  intros Hi. destruct g_exact as [HV [HVi [Heig Hinv]]].
  transitivity
    (bigsum a (fun k => entry (np.dot (np.dot (Pi g) (W g)) (v g)) k i)).
  - rewrite eigen_equation. unfold u.
    rewrite Rmult_comm, <- bigsum_scal.
    apply bigsum_ext. intros k Hk.
    rewrite (entry_mul_rows a a) by assumption. ring.
  - rewrite (bigsum_ext a _
               (fun k => bigsum a
                  (fun l => entry (np.dot (Pi g) (W g)) k l
                            * entry (v g) l i))).
    + rewrite bigsum_swap.
      rewrite (bigsum_ext a _ (fun _ => 0)); [apply bigsum_zero |].
      intros l Hl.
      rewrite (bigsum_ext a _
                 (fun k => entry (v g) l i
                           * entry (np.dot (Pi g) (W g)) k l)).
      * rewrite bigsum_scal, column_sum_Q by assumption. ring.
      * intros k _. ring.
    + intros k Hk.
      apply (entry_dot a a a); auto using is_matrix_Q.
Qed.

Lemma nth_exp_lt (t : R) (i : nat) :
  (i < a)%nat ->
  nth i (_exp_lt g t) 0 = exp (mu g * t * nth i (eigenmat g) 0).
Proof.
  intros Hi. destruct g_exact as [_ [_ [Heig _]]].
  unfold _exp_lt, np.exp. rewrite map_map.
  rewrite (nth_indep _ 0 ((fun lam => exp (mu g * t * lam)) 0))
    by (rewrite length_map, Heig; exact Hi).
  now rewrite (map_nth (fun lam => exp (mu g * t * lam))).
Qed.

Lemma u_decay (t : R) (i : nat) :
  (i < a)%nat -> u i * nth i (_exp_lt g t) 0 = u i.
Proof.
  intros Hi. rewrite nth_exp_lt by assumption.
  destruct (Rmult_integral _ _ (u_eigenvalue i Hi)) as [Hu | Hlam].
  - rewrite Hu. ring.
  - rewrite Hlam. replace (mu g * t * 0) with 0 by ring.
    rewrite exp_0. ring.
Qed.

Lemma sum_propagated_row (t : R) (c : vec) :
  length c = a -> np.sum (propagated_row g t c) = np.sum c.
Proof.
  intros Hc. destruct g_exact as [HV [HVi [Heig Hinv]]].
  assert (Hz : length (matvec (v_inv g) c) = a)
    by (rewrite length_matvec; now destruct HVi).
  assert (Hy : length (np.zipWith Rmult (_exp_lt g t) (matvec (v_inv g) c))
               = a).
  { rewrite length_zipWith, length_exp_lt, Heig, Hz. apply Nat.min_id. }
  unfold propagated_row.
  transitivity (np.sum (matvec (v g) (matvec (v_inv g) c))).
  - rewrite !(sum_matvec a) by assumption.
    apply bigsum_ext. intros i Hi. fold (u i).
    rewrite nth_zipWith by (rewrite ?length_exp_lt, ?Heig, ?Hz; exact Hi).
    rewrite <- Rmult_assoc, u_decay by assumption. reflexivity.
  - now rewrite (matvec_inverse a (v g) (v_inv g) a_pos HV HVi Hinv c Hc).
Qed.

(** X22: propagation conserves the total of every row.  In a model whose
    generator has columns that sum to zero, whose [v] holds eigenvectors of
    the generator for the eigenvalues [eigenmat] and whose [v_inv] is the
    inverse of [v], the profile that [propagate_profile] returns has, at
    every site, the same sum as the profile given: a distribution stays a
    distribution in total, for every time. *)
Theorem propagate_profile_conserves_total (profile : matrix) (t : R) :
  (forall r, In r profile -> length r = a) ->
  exists res,
    propagate_profile profile t false false g = (Ok res, g) /\
    np.sum1 res = np.sum1 profile.
Proof.
  intros Hrows. exists (map (propagated_row g t) profile). split.
  - apply (propagate_profile_rows a); auto.
    now apply eig_exact_shaped.
  - unfold np.sum1. rewrite map_map. apply map_ext_in.
    intros c Hc. apply sum_propagated_row. now apply Hrows.
Qed.

End Conservation.

Lemma propagate_profile_conserves_total_witness :
  exists res,
    propagate_profile Sample.site_AC 1 false false Sample.JC
    = (Ok res, Sample.JC) /\
    np.sum1 res = np.sum1 Sample.site_AC.
Proof.
  apply (propagate_profile_conserves_total 4 Sample.JC (Nat.lt_0_succ 3)
           sample_JC_exact).
  - split; [reflexivity |]. intros r [<-|[<-|[<-|[<-|[]]]]]; reflexivity.
  - split; [reflexivity |]. intros r [<-|[<-|[<-|[<-|[]]]]]; reflexivity.
  - exact sample_JC_eigen.
  - cbn. repeat (f_equal; try lra).
  - intros r [<-|[]]. reflexivity.
Defined.
